(** * AI Story Starter: a shallow embedding of the orchestration code

    The development follows the two source files of the application:

    - [src/services/geminiService.ts]: the two calls to the generative
      service ([generateStoryFromImage], [generateSpeechFromText]);
    - [src/App.tsx]: the React component [App] with its state variables,
      its two refs and its three handlers ([handleImageChange],
      [stopPlayback], [handleTogglePlayback]).

    JavaScript strings are sequences of UTF-16 code units, exceptions are
    values of an error monad that keeps the store (a thrown exception does
    not undo earlier writes), and every [await] on a real asynchronous
    operation is a task of the store that a later event settles. *)

From Stdlib Require Import ZArith NArith QArith List String Ascii Lia.
From Stdlib Require Import Strings.Byte.
From stdpp Require Import base list.
Import ListNotations.

Set Default Proof Using "Type".
Local Open Scope nat_scope.

(** ** JavaScript strings *)

Module JsString.

(** A string is the list of its UTF-16 code units. *)
Definition t := list N.

(** An ASCII literal of the source. *)
Definition lit (s : string) : t :=
  List.map N_of_ascii (list_ascii_of_string s).

(** [!s] is [true] exactly for the empty string. *)
Definition truthy (s : t) : bool :=
  match s with
  | [] => false
  | _ :: _ => true
  end.

(** [s.startsWith(p)] *)
Fixpoint startsWith (s p : t) : bool :=
  match p, s with
  | [], _ => true
  | _ :: _, [] => false
  | c :: p', d :: s' => N.eqb c d && startsWith s' p'
  end.

(** The code units that [String.prototype.trim] removes: ECMAScript's
    WhiteSpace (TAB, VT, FF, ZWNBSP and the space separators) and
    LineTerminator (LF, CR, LS, PS). *)
Definition isWhiteSpace (c : N) : bool :=
  ( N.eqb c 0x0009 || N.eqb c 0x000A || N.eqb c 0x000B || N.eqb c 0x000C
    || N.eqb c 0x000D || N.eqb c 0x0020 || N.eqb c 0x00A0 || N.eqb c 0x1680
    || (N.leb 0x2000 c && N.leb c 0x200A)
    || N.eqb c 0x2028 || N.eqb c 0x2029 || N.eqb c 0x202F || N.eqb c 0x205F
    || N.eqb c 0x3000 || N.eqb c 0xFEFF )%bool.

Fixpoint trimStart (s : t) : t :=
  match s with
  | [] => []
  | c :: s' => if isWhiteSpace c then trimStart s' else s
  end.

Definition trimEnd (s : t) : t := rev (trimStart (rev s)).

(** [s.trim()] *)
Definition trim (s : t) : t := trimEnd (trimStart s).

(** [s.split(sep)] for a separator of one code unit: the pieces between
    the occurrences of [sep], at least one piece. *)
Fixpoint split (sep : N) (s : t) : list t :=
  match s with
  | [] => [[]]
  | c :: s' =>
      if N.eqb c sep then [] :: split sep s'
      else match split sep s' with
           | [] => [[c]]
           | p :: ps => (c :: p) :: ps
           end
  end.

Definition beginsWithWhiteSpace (s : t) : Prop :=
  exists c s', s = c :: s' /\ isWhiteSpace c = true.

Definition endsWithWhiteSpace (s : t) : Prop :=
  exists s' c, s = s' ++ [c] /\ isWhiteSpace c = true.

End JsString.

Abbreviation jsstring := JsString.t.
Notation "'js' s" := (JsString.lit s) (at level 9, s at level 0, only parsing).

(** ** Exceptions and the result of a call *)

Inductive Exn : Type :=
| JsError (message : jsstring)          (* new Error(message) *)
| TypeError (message : jsstring)        (* a property read on undefined *)
| InvalidStateError                     (* DOMException of the audio graph *)
| NetworkError (cause : jsstring)       (* a rejection of the remote call *)
| MalformedInputError                   (* the codec: invalid base64 *)
| InvalidAudioFormatError.              (* the codec: empty payload *)

Inductive Result (A : Type) : Type :=
| Ok (a : A)
| Throw (e : Exn).
Arguments Ok {A} a.
Arguments Throw {A} e.

(** ** The audio buffer of the Web Audio API *)

Record AudioBuffer : Type := mkAudioBuffer {
  sampleRate : Z;
  numberOfChannels : nat;
  channelData : list (list Q)      (* getChannelData(ch), one list per channel *)
}.

(** ** The binary codec

    [src/App.tsx] imports [decode] and [decodeAudioData] from
    [src/utils/audioUtils.ts], which is not among the sources; the two
    operations are the spec's [decodeBase64] and [pcm16ToFloatBuffer]. *)

Module AudioUtils.

Definition byte_of_N (n : N) : byte :=
  default x00 (Byte.of_N (n mod 256)).

(** Modelled from the spec: the base64 alphabet of [decodeBase64]
    (absent [src/utils/audioUtils.ts]), a code unit to its six bits. *)
Definition sextet (c : N) : option N :=
  if (N.leb 65 c && N.leb c 90)%bool then Some (c - 65)%N
  else if (N.leb 97 c && N.leb c 122)%bool then Some (c - 71)%N
  else if (N.leb 48 c && N.leb c 57)%bool then Some (c + 4)%N
  else if N.eqb c 43 then Some 62%N
  else if N.eqb c 47 then Some 63%N
  else None.

Definition pad : N := 61.   (* '=' *)

(** Three bytes out of four sextets. *)
Definition quad (a b c d : N) : list byte :=
  let w := (a * 262144 + b * 4096 + c * 64 + d)%N in
  [byte_of_N (w / 65536); byte_of_N (w / 256); byte_of_N w].

(** Modelled from the spec: [decodeBase64(text) -> bytes] (the [decode]
    of the absent [src/utils/audioUtils.ts]): the exact byte sequence
    the text encodes; a [MalformedInputError] for a character outside
    the base64 alphabet or for invalid padding. *)
Fixpoint decodeBase64 (s : jsstring) : Result (list byte) :=
  match s with
  | [] => Ok []
  | a :: b :: c :: d :: rest =>
      match sextet a, sextet b with
      | Some x, Some y =>
          match sextet c, sextet d with
          | Some z, Some u =>
              match decodeBase64 rest with
              | Ok bs => Ok (quad x y z u ++ bs)
              | Throw e => Throw e
              end
          | Some z, None =>
              match rest with
              | [] => if N.eqb d pad then Ok (take 2 (quad x y z 0))
                      else Throw MalformedInputError
              | _ :: _ => Throw MalformedInputError
              end
          | None, _ =>
              match rest with
              | [] => if (N.eqb c pad && N.eqb d pad)%bool
                      then Ok (take 1 (quad x y 0 0))
                      else Throw MalformedInputError
              | _ :: _ => Throw MalformedInputError
              end
          end
      | _, _ => Throw MalformedInputError
      end
  | _ => Throw MalformedInputError
  end.

(** A signed 16-bit integer from its two bytes, low byte first. *)
Definition int16le (lo hi : byte) : Z :=
  let u := (Z.of_N (Byte.to_N lo) + 256 * Z.of_N (Byte.to_N hi))%Z in
  if (u <? 32768)%Z then u else (u - 65536)%Z.

(** The bytes read as a contiguous sequence of 16-bit samples; a last
    odd byte is dropped. *)
Fixpoint int16s (bs : list byte) : list Z :=
  match bs with
  | lo :: hi :: rest => int16le lo hi :: int16s rest
  | _ => []
  end.

(** A sample divided by 32768. The quotient of a 16-bit integer by 2^15
    is a binary fraction that a 32-bit float holds exactly, so the
    rational is the value stored in the buffer. *)
Definition normalize (v : Z) : Q := inject_Z v / inject_Z 32768.

(** floor(byteLength / 2 / channelCount) *)
Definition frameCount (byteLength channelCount : nat) : nat :=
  byteLength / 2 / channelCount.

(** The samples of one channel out of the interleaved sequence. *)
Definition deinterleave (samples : list Z) (channelCount frames ch : nat)
  : list Q :=
  (fun i => normalize (nth (i * channelCount + ch) samples 0%Z))
    <$> seq 0 frames.

(** Modelled from the spec: [pcm16ToFloatBuffer(bytes, sampleRate,
    channelCount) -> AudioPCM] (the [decodeAudioData] of the absent
    [src/utils/audioUtils.ts]): signed 16-bit little-endian samples,
    interleaved by channel, each divided by 32768;
    floor(byteLength / 2 / channelCount) samples per channel, trailing
    incomplete samples discarded; an [InvalidAudioFormatError] for an
    empty payload. *)
Definition pcm16ToFloatBuffer (bytes : list byte) (rate : Z)
    (channelCount : nat) : Result AudioBuffer :=
  match bytes with
  | [] => Throw InvalidAudioFormatError
  | _ :: _ =>
      let samples := int16s bytes in
      let frames := frameCount (length bytes) channelCount in
      Ok {| sampleRate := rate;
            numberOfChannels := channelCount;
            channelData :=
              deinterleave samples channelCount frames
                <$> seq 0 channelCount |}
  end.

Definition decode := decodeBase64.
Definition decodeAudioData := pcm16ToFloatBuffer.

End AudioUtils.

(** The interface [src/App.tsx] imports from [./utils/audioUtils]. The
    orchestration below is stated over any implementation of it. *)
Class Codec : Type := {
  decode : jsstring -> Result (list byte);
  decodeAudioData : list byte -> Z -> nat -> Result AudioBuffer
}.

(** The codec of the spec. *)
Definition specCodec : Codec :=
  {| decode := AudioUtils.decode;
     decodeAudioData := AudioUtils.decodeAudioData |}.

(** ** The audio graph of the Web Audio API *)

Module WebAudio.

(** [AudioContext.state] *)
Inductive ContextState : Type := running | suspended.

(** An [AudioBufferSourceNode]. [started] and [finished] record the
    calls of [start()] and the end of rendering (by [stop()] or at the
    end of the buffer); [dispatched] that the [ended] event was
    delivered; [onended] that the handler of [src/App.tsx] lines 87-90
    is registered. *)
Record SourceNode : Type := mkNode {
  buffer : option AudioBuffer;
  connected : bool;
  onended : bool;
  started : bool;
  finished : bool;
  dispatched : bool
}.

Definition fresh : SourceNode :=
  {| buffer := None; connected := false; onended := false;
     started := false; finished := false; dispatched := false |}.

Definition with_buffer (b : AudioBuffer) (nd : SourceNode) : SourceNode :=
  {| buffer := Some b; connected := connected nd; onended := onended nd;
     started := started nd; finished := finished nd;
     dispatched := dispatched nd |}.

Definition with_connected (c : bool) (nd : SourceNode) : SourceNode :=
  {| buffer := buffer nd; connected := c; onended := onended nd;
     started := started nd; finished := finished nd;
     dispatched := dispatched nd |}.

Definition with_onended (nd : SourceNode) : SourceNode :=
  {| buffer := buffer nd; connected := connected nd; onended := true;
     started := started nd; finished := finished nd;
     dispatched := dispatched nd |}.

Definition with_started (nd : SourceNode) : SourceNode :=
  {| buffer := buffer nd; connected := connected nd; onended := onended nd;
     started := true; finished := finished nd;
     dispatched := dispatched nd |}.

Definition with_finished (nd : SourceNode) : SourceNode :=
  {| buffer := buffer nd; connected := connected nd; onended := onended nd;
     started := started nd; finished := true;
     dispatched := dispatched nd |}.

Definition with_dispatched (nd : SourceNode) : SourceNode :=
  {| buffer := buffer nd; connected := connected nd; onended := onended nd;
     started := started nd; finished := true; dispatched := true |}.

(** The graph: every source node created so far, by identity. A
    reference to a node is its index, so two holders of one node see
    each other's writes. *)
Abbreviation Graph := (list SourceNode).

(** [ctx.createBufferSource()] *)
Definition createBufferSource (g : Graph) : nat * Graph :=
  (length g, g ++ [fresh]).

(** A method call on the node [n]; a node that does not exist cannot be
    referenced in JavaScript, the model raises a [TypeError]. *)
Definition on_node (n : nat) (f : SourceNode -> Result SourceNode)
    (g : Graph) : Result Graph :=
  match g !! n with
  | None => Throw (TypeError [])
  | Some nd =>
      match f nd with
      | Ok nd' => Ok (<[n := nd']> g)
      | Throw e => Throw e
      end
  end.

(** [source.start()]: an [InvalidStateError] on a second call. *)
Definition start (nd : SourceNode) : Result SourceNode :=
  if started nd then Throw InvalidStateError else Ok (with_started nd).

(** [source.stop()]: an [InvalidStateError] before [start()]; rendering
    ends at once, the [ended] event follows later. *)
Definition stop (nd : SourceNode) : Result SourceNode :=
  if started nd then Ok (with_finished nd) else Throw InvalidStateError.

(** [source.disconnect()] *)
Definition disconnect (nd : SourceNode) : Result SourceNode :=
  Ok (with_connected false nd).

(** [source.connect(ctx.destination)] *)
Definition connect (nd : SourceNode) : Result SourceNode :=
  Ok (with_connected true nd).

(** A source as [src/App.tsx] lines 83-92 leave it: buffer set,
    connected, handler registered, started. *)
Definition sounding (b : AudioBuffer) : SourceNode :=
  {| buffer := Some b; connected := true; onended := true;
     started := true; finished := false; dispatched := false |}.

(** A method that leaves a started node started. *)
Definition started_mono (f : SourceNode -> Result SourceNode) : Prop :=
  forall nd nd', f nd = Ok nd' -> started nd = true -> started nd' = true.

(** A node renders sound from [start()] until it has finished. *)
Definition rendering (nd : SourceNode) : bool :=
  started nd && negb (finished nd).

(** The indices of the nodes that are rendering. *)
Fixpoint rendering_from (i : nat) (g : Graph) : list nat :=
  match g with
  | [] => []
  | nd :: g' =>
      if rendering nd then i :: rendering_from (S i) g'
      else rendering_from (S i) g'
  end.

End WebAudio.

(** ** The requests and responses of the generative service *)

Module GenAI.

Inductive Request : Type :=
| StoryRequest (model : jsstring) (inlineData : option jsstring)
               (mimeType : jsstring) (prompt : jsstring)
| SpeechRequest (model : jsstring) (prompt : jsstring) (voiceName : jsstring).

Record Blob : Type := { data : option jsstring }.
Record Part : Type := { inlineData : option Blob }.
Record Content : Type := { parts : option (list Part) }.
Record Candidate : Type := { content : option Content }.

(** [GenerateContentResponse]: the [text] accessor and the candidates. *)
Record Response : Type := {
  text : option jsstring;
  candidates : option (list Candidate)
}.

(** The promise of [ai.models.generateContent] settles with a response
    or is rejected. *)
Inductive Settlement : Type :=
| Fulfilled (response : Response)
| Rejected (reason : Exn).

(** The text of a settled call, if it has one. *)
Definition settledText (s : Settlement) : option jsstring :=
  match s with
  | Fulfilled response => text response
  | Rejected _ => None
  end.

(** A response that carries [audio] as the first part of the first
    candidate, and one that carries [t] as its text. *)
Definition audioResponse (audio : jsstring) : Response :=
  {| text := None;
     candidates :=
       Some [ {| content :=
                   Some {| parts :=
                             Some [ {| inlineData :=
                                         Some {| data := Some audio |} |} ]
                        |} |} ] |}.

Definition textResponse (t : jsstring) : Response :=
  {| text := Some t; candidates := None |}.

End GenAI.

(** ** The page: component state, refs and browser environment *)

Module Page.
Import WebAudio GenAI.

(** [type AppState = 'idle' | 'loadingStory' | 'loadingAudio' | 'error'] *)
Inductive AppState : Type := idle | loadingStory | loadingAudio | error'.

Definition AppState_eqb (a b : AppState) : bool :=
  match a, b with
  | idle, idle | loadingStory, loadingStory
  | loadingAudio, loadingAudio | error', error' => true
  | _, _ => false
  end.

(** A [File] of the file picker: its name and its declared MIME type. *)
Record File : Type := { name : jsstring; type : jsstring }.

(** An asynchronous operation that has not settled yet, with the
    variables its continuation closes over. *)
Inductive Task : Type :=
| FileRead (file : File)                  (* reader.readAsDataURL(file) *)
| StoryCall (base64Image mimeType : jsstring)
                                          (* generateStoryFromImage awaits *)
| Resume (story : jsstring)               (* audioContext.resume() *)
| SpeechCall (story : jsstring).          (* generateSpeechFromText awaits *)

(** A line of [console.error]: an optional label and the error. *)
Definition LogEntry : Type := option jsstring * Exn.

Record World : Type := mkWorld {
  (* useState *)
  image : option jsstring;
  story : jsstring;
  status : AppState;
  error : jsstring;
  isPlaying : bool;
  (* useRef *)
  audioContextRef : option ContextState;
  audioSourceRef : option nat;
  (* the browser *)
  nodes : Graph;
  tasks : list (option Task);
  requests : list Request;
  console : list LogEntry;
  uncaught : list Exn;
  autoplay : ContextState   (* the state in which a new context comes up *)
}.

Definition init : World :=
  {| image := None; story := []; status := idle; error := [];
     isPlaying := false; audioContextRef := None; audioSourceRef := None;
     nodes := []; tasks := []; requests := []; console := [];
     uncaught := []; autoplay := suspended |}.

Definition with_image v w :=
  mkWorld v (story w) (status w) (error w) (isPlaying w)
    (audioContextRef w) (audioSourceRef w) (nodes w) (tasks w)
    (requests w) (console w) (uncaught w) (autoplay w).
Definition with_story v w :=
  mkWorld (image w) v (status w) (error w) (isPlaying w)
    (audioContextRef w) (audioSourceRef w) (nodes w) (tasks w)
    (requests w) (console w) (uncaught w) (autoplay w).
Definition with_status v w :=
  mkWorld (image w) (story w) v (error w) (isPlaying w)
    (audioContextRef w) (audioSourceRef w) (nodes w) (tasks w)
    (requests w) (console w) (uncaught w) (autoplay w).
Definition with_error v w :=
  mkWorld (image w) (story w) (status w) v (isPlaying w)
    (audioContextRef w) (audioSourceRef w) (nodes w) (tasks w)
    (requests w) (console w) (uncaught w) (autoplay w).
Definition with_isPlaying v w :=
  mkWorld (image w) (story w) (status w) (error w) v
    (audioContextRef w) (audioSourceRef w) (nodes w) (tasks w)
    (requests w) (console w) (uncaught w) (autoplay w).
Definition with_audioContextRef v w :=
  mkWorld (image w) (story w) (status w) (error w) (isPlaying w)
    v (audioSourceRef w) (nodes w) (tasks w)
    (requests w) (console w) (uncaught w) (autoplay w).
Definition with_audioSourceRef v w :=
  mkWorld (image w) (story w) (status w) (error w) (isPlaying w)
    (audioContextRef w) v (nodes w) (tasks w)
    (requests w) (console w) (uncaught w) (autoplay w).
Definition with_nodes v w :=
  mkWorld (image w) (story w) (status w) (error w) (isPlaying w)
    (audioContextRef w) (audioSourceRef w) v (tasks w)
    (requests w) (console w) (uncaught w) (autoplay w).
Definition with_tasks v w :=
  mkWorld (image w) (story w) (status w) (error w) (isPlaying w)
    (audioContextRef w) (audioSourceRef w) (nodes w) v
    (requests w) (console w) (uncaught w) (autoplay w).
Definition with_requests v w :=
  mkWorld (image w) (story w) (status w) (error w) (isPlaying w)
    (audioContextRef w) (audioSourceRef w) (nodes w) (tasks w)
    v (console w) (uncaught w) (autoplay w).
Definition with_console v w :=
  mkWorld (image w) (story w) (status w) (error w) (isPlaying w)
    (audioContextRef w) (audioSourceRef w) (nodes w) (tasks w)
    (requests w) v (uncaught w) (autoplay w).
Definition with_uncaught v w :=
  mkWorld (image w) (story w) (status w) (error w) (isPlaying w)
    (audioContextRef w) (audioSourceRef w) (nodes w) (tasks w)
    (requests w) (console w) v (autoplay w).
Definition with_autoplay v w :=
  mkWorld (image w) (story w) (status w) (error w) (isPlaying w)
    (audioContextRef w) (audioSourceRef w) (nodes w) (tasks w)
    (requests w) (console w) (uncaught w) v.

(** *** The monad of handlers: a store and exceptions

    A computation returns a value or throws, and in both cases hands
    on the store as it left it. *)
Definition M (A : Type) : Type := World -> Result A * World.

Definition ret {A} (a : A) : M A := fun w => (Ok a, w).

Definition bind {A B} (m : M A) (k : A -> M B) : M B :=
  fun w =>
    match m w with
    | (Ok a, w') => k a w'
    | (Throw e, w') => (Throw e, w')
    end.

Definition throw {A} (e : Exn) : M A := fun w => (Throw e, w).

(** [try { m } catch (e) { h e }] *)
Definition try_catch {A} (m : M A) (h : Exn -> M A) : M A :=
  fun w =>
    match m w with
    | (Ok a, w') => (Ok a, w')
    | (Throw e, w') => h e w'
    end.

Definition gets {A} (f : World -> A) : M A := fun w => (Ok (f w), w).
Definition modify (f : World -> World) : M unit := fun w => (Ok tt, f w).
Definition lift {A} (r : Result A) : M A := fun w => (r, w).

(** Assertions on handlers: [keeps I m] says that [m] hands on a store
    in which [I] holds when it receives one, whether it returns or
    throws; [returns m Q] that every value [m] returns satisfies [Q]. *)
Definition keeps (I : World -> Prop) {A} (m : M A) : Prop :=
  forall w, I w -> I (snd (m w)).

Definition returns {A} (m : M A) (Q : A -> Prop) : Prop :=
  forall w a w', m w = (Ok a, w') -> Q a.

Declare Scope js_scope.
Delimit Scope js_scope with handler.
Notation "x <- m ;; k" := (bind m (fun x => k))
  (at level 100, m at next level, right associativity) : js_scope.
Notation "m ;; k" := (bind m (fun _ => k))
  (at level 100, right associativity) : js_scope.
Bind Scope js_scope with M.
Local Open Scope js_scope.

(** The setters of [useState] and the writes of the refs. *)
Definition setImage (v : jsstring) : M unit := modify (with_image (Some v)).
Definition setStory (v : jsstring) : M unit := modify (with_story v).
Definition setStatus (v : AppState) : M unit := modify (with_status v).
Definition setError (v : jsstring) : M unit := modify (with_error v).
Definition setIsPlaying (v : bool) : M unit := modify (with_isPlaying v).
Definition set_audioContextRef (v : option ContextState) : M unit :=
  modify (with_audioContextRef v).
Definition set_audioSourceRef (v : option nat) : M unit :=
  modify (with_audioSourceRef v).

(** [console.error(label, e)] and [console.error(e)] *)
Definition console_error (label : option jsstring) (e : Exn) : M unit :=
  modify (fun w => with_console (console w ++ [(label, e)]) w).

(** The start of an asynchronous operation: the task joins the pending
    ones, its index identifies it. *)
Definition spawn (t : Task) : M unit :=
  modify (fun w => with_tasks (tasks w ++ [Some t]) w).

(** The task [t] has settled. *)
Definition settle (t : nat) : M unit :=
  modify (fun w => with_tasks (<[t := None]> (tasks w)) w).

(** [ai.models.generateContent(request)] up to its promise. *)
Definition generateContent (r : Request) : M unit :=
  modify (fun w => with_requests (requests w ++ [r]) w).

(** [await] of a settled promise of the service. *)
Definition await (s : Settlement) : M Response :=
  match s with
  | Fulfilled r => ret r
  | Rejected e => throw e
  end.

(** A method call on a source node of the graph. *)
Definition node_call (n : nat) (f : SourceNode -> Result SourceNode)
  : M unit :=
  fun w =>
    match on_node n f (nodes w) with
    | Ok g => (Ok tt, with_nodes g w)
    | Throw e => (Throw e, w)
    end.

(** [new AudioContext({ sampleRate: 24000 })]: the browser decides
    whether the context comes up running. *)
Definition new_AudioContext : M ContextState := gets autoplay.

(** [audioContextRef.current.createBufferSource()] *)
Definition new_source : M nat :=
  fun w =>
    match audioContextRef w with
    | None => (Throw (TypeError []), w)
    | Some _ =>
        let '(n, g) := createBufferSource (nodes w) in
        (Ok n, with_nodes g w)
    end.

End Page.

(** ** [src/services/geminiService.ts] *)

Module GeminiService.
Import Page GenAI.
Local Open Scope js_scope.

Definition comma : N := 44.

(** [fileToGenerativePart]: [data] is [base64Data.split(',')[1]]. *)
Definition fileToGenerativePart (base64Data mimeType : jsstring)
  : option jsstring * jsstring :=
  (JsString.split comma base64Data !! 1, mimeType).

Definition storyPrompt : jsstring :=
  js "Analyze the mood and scene of this image. Ghostwrite an intriguing and evocative opening paragraph to a story set in this world. The tone should be creative and literary.".

Definition storyLabel : jsstring :=
  js "Error generating story from image:".

Definition storyFailure : jsstring :=
  js "Failed to communicate with the Gemini API for story generation.".

Definition speechLabel : jsstring :=
  js "Error generating speech from text:".

Definition noAudioMessage : jsstring :=
  js "No audio data received from API.".

Definition speechFailure : jsstring :=
  js "Failed to communicate with the Gemini API for speech generation.".

(** [generateStoryFromImage], lines 20-30: up to the [await] of
    [generateContent]. *)
Definition generateStoryFromImage (base64Image mimeType : jsstring)
  : M unit :=
  let imagePart := fileToGenerativePart base64Image mimeType in
  generateContent (StoryRequest (js "gemini-2.5-flash") (fst imagePart)
                                (snd imagePart) storyPrompt) ;;
  spawn (StoryCall base64Image mimeType).

(** [generateStoryFromImage], lines 26-36: from the settled promise to
    the value returned or the error thrown. [response.text.trim()]
    throws a [TypeError] when the response has no text. *)
Definition generateStoryFromImage_settled (s : Settlement) : M jsstring :=
  try_catch
    (response <- await s ;;
     match text response with
     | Some t => ret (JsString.trim t)
     | None => throw (TypeError (js "Cannot read properties of undefined"))
     end)
    (fun error =>
       console_error (Some storyLabel) error ;;
       throw (JsError storyFailure)).

(** [generateSpeechFromText], lines 39-52: up to the [await]. *)
Definition generateSpeechFromText (story : jsstring) : M unit :=
  generateContent
    (SpeechRequest (js "gemini-2.5-flash-preview-tts")
       (js "Read this with an expressive, narrative voice: " ++ story)
       (js "Kore")) ;;
  spawn (SpeechCall story).

(** Optional chaining: [o?.f] is [undefined] when [o] is. *)
Definition chain {A B} (o : option A) (f : A -> option B) : option B :=
  match o with
  | Some a => f a
  | None => None
  end.
Notation "o ?. f" := (chain o f) (at level 50, left associativity).

(** [response.candidates?.[0]?.content?.parts?.[0]?.inlineData?.data] *)
Definition audioData (response : Response) : option jsstring :=
  candidates response ?. head ?. content ?. parts ?. head
    ?. inlineData ?. data.

(** [!audioData]: no payload, or an empty one. *)
Definition noAudio (response : Response) : bool :=
  match audioData response with
  | Some a => negb (JsString.truthy a)
  | None => true
  end.

(** [generateSpeechFromText], lines 40-62: from the settled promise to
    the value returned or the error thrown. *)
Definition generateSpeechFromText_settled (s : Settlement) : M jsstring :=
  try_catch
    (response <- await s ;;
     match audioData response with
     | Some a =>
         if JsString.truthy a then ret a
         else throw (JsError noAudioMessage)
     | None => throw (JsError noAudioMessage)
     end)
    (fun error =>
       console_error (Some speechLabel) error ;;
       throw (JsError speechFailure)).

End GeminiService.

(** ** [src/App.tsx] *)

Module App.
Import WebAudio GenAI Page GeminiService.
Local Open Scope js_scope.

(** What the user and the browser do to the page. *)
Inductive Event : Type :=
| Change (files : option (list File))    (* the file input changes *)
| Click                                  (* the playback button *)
| Load (t : nat) (result : jsstring)     (* the reader of task [t] loads *)
| Respond (t : nat) (s : Settlement)     (* the call of task [t] settles *)
| Resumed (t : nat) (r : Result unit)    (* resume() of task [t] settles *)
| Ended (n : nat)                        (* the node [n] fires [ended] *)
| StateChange (st : ContextState)        (* the context changes state *)
| Autoplay (st : ContextState).          (* the autoplay policy changes *)

Definition invalidImage : jsstring := js "Please upload a valid image file.".
Definition storyFailed : jsstring :=
  js "Failed to generate story. Please try again.".
Definition audioFailed : jsstring :=
  js "Failed to generate audio. Please try again.".

Section WithCodec.
Context {codec : Codec}.

(** [handleImageChange], lines 19-48: up to [readAsDataURL]. *)
Definition handleImageChange (files : option (list File)) : M unit :=
  match files ?. head with
  | Some file =>
      if negb (JsString.startsWith (type file) (js "image/")) then
        setError invalidImage ;;
        setStatus error'
      else
        spawn (FileRead file)
  | None => ret tt
  end.

(** [reader.onload], lines 29-37: up to the [await]. *)
Definition reader_onload (file : File) (result : jsstring) : M unit :=
  let base64Image := result in
  setImage base64Image ;;
  setStory [] ;;
  setError [] ;;
  setStatus loadingStory ;;
  generateStoryFromImage base64Image (type file).

(** [reader.onload], lines 36-44: from the settled call on. *)
Definition reader_onload_settled (s : Settlement) : M unit :=
  try_catch
    (generatedStory <- generateStoryFromImage_settled s ;;
     setStory generatedStory ;;
     setStatus idle)
    (fun err =>
       console_error None err ;;
       setError storyFailed ;;
       setStatus error').

(** [stopPlayback], lines 50-57. *)
Definition stopPlayback : M unit :=
  current <- gets audioSourceRef ;;
  match current with
  | Some n =>
      node_call n stop ;;
      node_call n disconnect ;;
      set_audioSourceRef None
  | None => ret tt
  end ;;
  setIsPlaying false.

(** [source.onended], lines 87-90. *)
Definition source_onended : M unit :=
  setIsPlaying false ;;
  set_audioSourceRef None.

(** The [catch] of [handleTogglePlayback], lines 97-102. *)
Definition handleTogglePlayback_catch (err : Exn) : M unit :=
  console_error None err ;;
  setError audioFailed ;;
  setStatus error' ;;
  setIsPlaying false.

(** [handleTogglePlayback], lines 79-95 inside the [try]: from the
    settled speech call to the started source. *)
Definition playback (s : Settlement) : M unit :=
  base64Audio <- generateSpeechFromText_settled s ;;
  audioBytes <- lift (decode base64Audio) ;;
  audioBuffer <- lift (decodeAudioData audioBytes 24000 1) ;;
  source <- new_source ;;
  node_call source (fun nd => Ok (with_buffer audioBuffer nd)) ;;
  node_call source connect ;;
  node_call source (fun nd => Ok (with_onended nd)) ;;
  node_call source start ;;
  set_audioSourceRef (Some source) ;;
  setIsPlaying true ;;
  setStatus idle.

Definition handleTogglePlayback_settled (s : Settlement) : M unit :=
  try_catch (playback s) handleTogglePlayback_catch.

(** [handleTogglePlayback], lines 77-79: from the settled [resume()]
    to the [await] of the speech call; [story] is the one the handler
    closed over. *)
Definition handleTogglePlayback_resumed (story : jsstring)
    (r : Result unit) : M unit :=
  try_catch
    (lift r ;;
     set_audioContextRef (Some running) ;;
     generateSpeechFromText story)
    handleTogglePlayback_catch.

(** [handleTogglePlayback], lines 59-79: up to its first [await]. *)
Definition handleTogglePlayback : M unit :=
  isPlaying <- gets isPlaying ;;
  story <- gets story ;;
  if isPlaying then stopPlayback
  else if negb (JsString.truthy story) then ret tt
  else
    setStatus loadingAudio ;;
    setError [] ;;
    try_catch
      (current <- gets audioContextRef ;;
       match current with
       | None =>
           ctx <- new_AudioContext ;;
           set_audioContextRef (Some ctx)
       | Some _ => ret tt
       end ;;
       current <- gets audioContextRef ;;
       match current with
       | None => throw (TypeError [])
       | Some suspended => spawn (Resume story)
       | Some running => generateSpeechFromText story
       end)
      handleTogglePlayback_catch.

(** [const isLoading = ...], line 105, and the [disabled] attributes
    of the file input (line 134) and of the button (line 160). *)
Definition isLoading (w : World) : bool :=
  AppState_eqb (status w) loadingStory
  || AppState_eqb (status w) loadingAudio.

Definition input_disabled (w : World) : bool := isLoading w.

Definition button_disabled (w : World) : bool :=
  negb (JsString.truthy (story w))
  || AppState_eqb (status w) loadingStory.

(** The [ended] event reaches a node that was started and has not
    received it yet; the node has finished by then. *)
Definition fire_ended (n : nat) : M unit :=
  g <- gets nodes ;;
  match g !! n with
  | Some nd =>
      if started nd && negb (dispatched nd) then
        node_call n (fun nd => Ok (with_dispatched nd)) ;;
        if onended nd then source_onended else ret tt
      else ret tt
  | None => ret tt
  end.

(** One event: a disabled control delivers nothing, a settlement
    runs the continuation of its task, once. *)
Definition step (ev : Event) : M unit :=
  pending <- gets tasks ;;
  disabled_input <- gets input_disabled ;;
  disabled_button <- gets button_disabled ;;
  match ev with
  | Change files =>
      if disabled_input then ret tt else handleImageChange files
  | Click =>
      if disabled_button then ret tt else handleTogglePlayback
  | Load t result =>
      match pending !! t with
      | Some (Some (FileRead file)) => settle t ;; reader_onload file result
      | _ => ret tt
      end
  | Respond t s =>
      match pending !! t with
      | Some (Some (StoryCall _ _)) => settle t ;; reader_onload_settled s
      | Some (Some (SpeechCall _)) =>
          settle t ;; handleTogglePlayback_settled s
      | _ => ret tt
      end
  | Resumed t r =>
      match pending !! t with
      | Some (Some (Resume story)) =>
          settle t ;; handleTogglePlayback_resumed story r
      | _ => ret tt
      end
  | Ended n => fire_ended n
  | StateChange st =>
      current <- gets audioContextRef ;;
      match current with
      | Some _ => set_audioContextRef (Some st)
      | None => ret tt
      end
  | Autoplay st => modify (with_autoplay st)
  end.

(** An exception no handler catches is reported to the page and the
    store stays as the handler left it. *)
Definition dispatch (ev : Event) (w : World) : World :=
  match step ev w with
  | (Ok _, w') => w'
  | (Throw e, w') => with_uncaught (uncaught w' ++ [e]) w'
  end.

Fixpoint run (evs : list Event) (w : World) : World :=
  match evs with
  | [] => w
  | ev :: evs' => run evs' (dispatch ev w)
  end.

(** The playback sessions: the source nodes that are rendering. *)
Definition sessions (w : World) : list nat := rendering_from 0 (nodes w).

(** The source [audioSourceRef] holds, if any, has been started. *)
Definition source_started (w : World) : Prop :=
  forall n, audioSourceRef w = Some n ->
            exists nd, nodes w !! n = Some nd /\ started nd = true.

(** While Playing is set, [audioSourceRef] holds a source. *)
Definition playing_has_source (w : World) : Prop :=
  isPlaying w = true -> audioSourceRef w <> None.

(** The Story neither begins nor ends with white space. *)
Definition story_trimmed (w : World) : Prop :=
  ~ JsString.beginsWithWhiteSpace (story w) /\
  ~ JsString.endsWithWhiteSpace (story w).

(** What holds of the page after every event. *)
Definition invariant (w : World) : Prop :=
  source_started w /\ playing_has_source w /\ story_trimmed w.

End WithCodec.

End App.

(** ** The page as a state machine

    The steps of the page, one rule for each way an event can go, and
    what holds of the pages reached from the initial one. *)

Module Machine.
Import WebAudio GenAI Page GeminiService App.

(** The store after the task [t] has settled, after a task has started,
    after a request has been sent, after lines were logged. *)
Definition settled (t : nat) (w : World) : World :=
  with_tasks (<[t := None]> (tasks w)) w.

Definition spawned (task : Task) (w : World) : World :=
  with_tasks (tasks w ++ [Some task]) w.

Definition requested (r : Request) (w : World) : World :=
  with_requests (requests w ++ [r]) w.

Definition logged (l : list LogEntry) (w : World) : World :=
  with_console (console w ++ l) w.

(** The request of [generateStoryFromImage] and of
    [generateSpeechFromText]. *)
Definition storyRequest (base64Image mimeType : jsstring) : Request :=
  StoryRequest (js "gemini-2.5-flash")
    (fst (fileToGenerativePart base64Image mimeType)) mimeType storyPrompt.

Definition speechPrefix : jsstring :=
  js "Read this with an expressive, narrative voice: ".

Definition speechRequest (story : jsstring) : Request :=
  SpeechRequest (js "gemini-2.5-flash-preview-tts")
    (speechPrefix ++ story) (js "Kore").

(** The state of the audio context a playback uses: the one there is,
    or the one a new context comes up in. *)
Definition context_of (w : World) : ContextState :=
  match audioContextRef w with
  | Some ctx => ctx
  | None => autoplay w
  end.

(** The store a [catch] of the component leaves. *)
Definition failed (message : jsstring) (l : list LogEntry) (w : World)
  : World :=
  with_status error' (with_error message (logged l w)).

(** Every step of the page is one of these: [dispatch ev w] is related
    to [w] by [transition] (the relation allows more outcomes of a
    settled speech call than a given codec has). *)
Inductive transition (w : World) : Event -> World -> Prop :=
| T_ignored ev :
    transition w ev w
| T_reject files file :
    input_disabled w = false ->
    files ?. head = Some file ->
    JsString.startsWith (type file) (js "image/") = false ->
    transition w (Change files) (with_status error' (with_error invalidImage w))
| T_read files file :
    input_disabled w = false ->
    files ?. head = Some file ->
    JsString.startsWith (type file) (js "image/") = true ->
    transition w (Change files) (spawned (FileRead file) w)
| T_load t file result :
    tasks w !! t = Some (Some (FileRead file)) ->
    transition w (Load t result)
      (spawned (StoryCall result (type file))
         (requested (storyRequest result (type file))
            (with_status loadingStory
               (with_error []
                  (with_story [] (with_image (Some result) (settled t w)))))))
| T_story t b m s txt :
    tasks w !! t = Some (Some (StoryCall b m)) ->
    settledText s = Some txt ->
    transition w (Respond t s)
      (with_status idle (with_story (JsString.trim txt) (settled t w)))
| T_story_failed t b m s l :
    tasks w !! t = Some (Some (StoryCall b m)) ->
    settledText s = None ->
    transition w (Respond t s) (failed storyFailed l (settled t w))
| T_stop n nd :
    button_disabled w = false ->
    isPlaying w = true ->
    audioSourceRef w = Some n ->
    nodes w !! n = Some nd ->
    started nd = true ->
    transition w Click
      (with_isPlaying false
         (with_audioSourceRef None
            (with_nodes
               (<[n := with_connected false (with_finished nd)]> (nodes w))
               w)))
| T_stop_nothing :
    button_disabled w = false ->
    isPlaying w = true ->
    audioSourceRef w = None ->
    transition w Click (with_isPlaying false w)
| T_stop_throws n e :
    button_disabled w = false ->
    isPlaying w = true ->
    audioSourceRef w = Some n ->
    (forall nd, nodes w !! n = Some nd -> started nd = false) ->
    transition w Click (with_uncaught (uncaught w ++ [e]) w)
| T_resume :
    button_disabled w = false ->
    isPlaying w = false ->
    context_of w = suspended ->
    transition w Click
      (spawned (Resume (story w))
         (with_audioContextRef (Some suspended)
            (with_error [] (with_status loadingAudio w))))
| T_speak :
    button_disabled w = false ->
    isPlaying w = false ->
    context_of w = running ->
    transition w Click
      (spawned (SpeechCall (story w))
         (requested (speechRequest (story w))
            (with_audioContextRef (Some running)
               (with_error [] (with_status loadingAudio w)))))
| T_resumed t st :
    tasks w !! t = Some (Some (Resume st)) ->
    transition w (Resumed t (Ok tt))
      (spawned (SpeechCall st)
         (requested (speechRequest st)
            (with_audioContextRef (Some running) (settled t w))))
| T_resume_failed t st e :
    tasks w !! t = Some (Some (Resume st)) ->
    transition w (Resumed t (Throw e))
      (with_isPlaying false (failed audioFailed [(None, e)] (settled t w)))
| T_play t st s b :
    tasks w !! t = Some (Some (SpeechCall st)) ->
    transition w (Respond t s)
      (with_status idle
         (with_isPlaying true
            (with_audioSourceRef (Some (length (nodes w)))
               (with_nodes (nodes w ++ [sounding b]) (settled t w)))))
| T_play_failed t st s l :
    tasks w !! t = Some (Some (SpeechCall st)) ->
    transition w (Respond t s)
      (with_isPlaying false (failed audioFailed l (settled t w)))
| T_ended n nd :
    nodes w !! n = Some nd ->
    started nd = true -> dispatched nd = false -> onended nd = true ->
    transition w (Ended n)
      (with_audioSourceRef None
         (with_isPlaying false
            (with_nodes (<[n := with_dispatched nd]> (nodes w)) w)))
| T_ended_unobserved n nd :
    nodes w !! n = Some nd ->
    started nd = true -> dispatched nd = false -> onended nd = false ->
    transition w (Ended n)
      (with_nodes (<[n := with_dispatched nd]> (nodes w)) w)
| T_state ctx st :
    audioContextRef w = Some ctx ->
    transition w (StateChange st) (with_audioContextRef (Some st) w)
| T_autoplay st :
    transition w (Autoplay st) (with_autoplay st w).


(** What the page has asked of the browser and of the service. A
    pending read or story call is for an image type, a pending resume
    or speech call carries a Story that is not empty; a story request
    names an image type, a speech request reads a Story that is not
    empty. *)
Definition task_ok (task : option Task) : Prop :=
  match task with
  | Some (FileRead file) =>
      JsString.startsWith (type file) (js "image/") = true
  | Some (StoryCall _ mimeType) =>
      JsString.startsWith mimeType (js "image/") = true
  | Some (Resume story) | Some (SpeechCall story) => story <> []
  | None => True
  end.

Definition request_ok (r : Request) : Prop :=
  match r with
  | StoryRequest model _ mimeType prompt =>
      model = js "gemini-2.5-flash" /\
      JsString.startsWith mimeType (js "image/") = true /\
      prompt = storyPrompt
  | SpeechRequest model prompt voiceName =>
      model = js "gemini-2.5-flash-preview-tts" /\
      voiceName = js "Kore" /\
      exists story, story <> [] /\ prompt = speechPrefix ++ story
  end.

Definition traffic_ok (w : World) : Prop :=
  Forall task_ok (tasks w) /\ Forall request_ok (requests w).

(** The message under the button is empty or one of the three of the
    component. *)
Definition error_ok (w : World) : Prop :=
  error w = [] \/ error w = invalidImage \/ error w = storyFailed
  \/ error w = audioFailed.

(** The two loading states and the Story. *)
Definition loading_ok (w : World) : Prop :=
  (status w = loadingStory -> story w = []) /\
  (status w = loadingAudio -> story w <> []).

(** The playback state is the same in two stores. *)
Definition same_audio (w w' : World) : Prop :=
  isPlaying w' = isPlaying w /\
  audioSourceRef w' = audioSourceRef w /\
  audioContextRef w' = audioContextRef w /\
  nodes w' = nodes w.

(** Every source of the graph went through lines 83-92. *)
Definition nodes_ok (w : World) : Prop :=
  Forall (fun nd => started nd = true /\ onended nd = true /\
                    buffer nd <> None) (nodes w).

End Machine.

(** ** Scenarios

    The files, responses and event sequences of the spec's scenarios. *)

Module Scenario.
Import WebAudio GenAI Page App.

Definition pdf : File :=
  {| name := js "doc.pdf"; type := js "application/pdf" |}.

Definition jpeg : File :=
  {| name := js "photo.jpg"; type := js "image/jpeg" |}.

Definition dataURL : jsstring := js "data:image/jpeg;base64,/9j/4AAQ".

(** Two 16-bit samples, 0x0000 and 0x7FFF, in base64. *)
Definition twoSamples : Response := audioResponse (js "AAD/fw==").

(** A response without candidates. *)
Definition emptyResponse : Response :=
  {| text := None; candidates := None |}.

(** A JPEG has been selected in the initial page. *)
Definition selected : World :=
  @dispatch specCodec (Change (Some [jpeg])) init.

(** A JPEG is selected, read, and its story generated. *)
Definition storyReady : list Event :=
  [ Change (Some [jpeg]);
    Load 0 dataURL;
    Respond 1 (Fulfilled (textResponse (js "  The lighthouse kept its own hours.  "))) ].

(** "Read Aloud" is pressed once: the speech call is under way. *)
Definition firstClick : list Event :=
  storyReady ++ [ Autoplay running; Click ].

(** It is pressed again before the call settles, then the first call
    settles and its source plays. *)
Definition firstPlaying : list Event :=
  firstClick ++ [ Click; Respond 2 (Fulfilled twoSamples) ].

(** The second call settles as well. *)
Definition secondSettles : Event := Respond 3 (Fulfilled twoSamples).

Definition doubleToggle : list Event := firstPlaying ++ [secondSettles].

(** "Read Aloud" is pressed once and the speech call settles: the story
    is being read. *)
Definition reading : list Event :=
  firstClick ++ [ Respond 2 (Fulfilled twoSamples) ].

End Scenario.

(** * Properties *)

(** ** The codec *)

Section CodecProperties.
Import AudioUtils.

Lemma int16le_range (lo hi : byte) :
  (-32768 <= int16le lo hi < 32768)%Z.
Proof.
  unfold int16le.
  pose proof (Byte.to_N_bounded lo) as Hlo.
  pose proof (Byte.to_N_bounded hi) as Hhi.
  destruct (Z.ltb_spec
              (Z.of_N (Byte.to_N lo) + 256 * Z.of_N (Byte.to_N hi)) 32768);
    lia.
Qed.

Lemma normalize_range (v : Z) :
  (-32768 <= v < 32768)%Z ->
  (inject_Z (-1) <= normalize v)%Q /\ (normalize v < inject_Z 1)%Q.
Proof.
  intros Hv. unfold normalize, Qdiv, Qle, Qlt, Qmult, Qinv, inject_Z.
  simpl. lia.
Qed.

(** The sample [k] is made of the bytes [2k] and [2k+1]. *)
Lemma int16s_lookup (k : nat) :
  forall (bs : list byte) (lo hi : byte),
    bs !! (2 * k) = Some lo -> bs !! (2 * k + 1) = Some hi ->
    int16s bs !! k = Some (int16le lo hi).
Proof.
  induction k as [|k IH]; intros bs lo hi Hlo Hhi.
  - destruct bs as [|a [|b rest]]; simpl in *; congruence.
  - destruct bs as [|a [|b rest]]; simpl in Hlo, Hhi; try discriminate.
    replace (k + S (k + 0)) with (S (2 * k)) in Hlo by lia.
    replace (k + S (k + 0) + 1) with (S (2 * k + 1)) in Hhi by lia.
    simpl in Hlo, Hhi. simpl. apply IH; assumption.
Qed.

Lemma frame_in_range (L c i ch : nat) :
  i < frameCount L c -> ch < c -> 2 * (i * c + ch) + 1 < L.
Proof.
  unfold frameCount. intros Hi Hch.
  pose proof (Nat.Div0.mul_div_le (L / 2) c) as H1.
  pose proof (Nat.Div0.mul_div_le L 2) as H2.
  nia.
Qed.

Lemma deinterleave_lookup (bs : list byte) (c i ch : nat) :
  i < frameCount (length bs) c -> ch < c ->
  exists lo hi,
    bs !! (2 * (i * c + ch)) = Some lo /\
    bs !! (2 * (i * c + ch) + 1) = Some hi /\
    deinterleave (int16s bs) c (frameCount (length bs) c) ch !! i
    = Some (normalize (int16le lo hi)).
Proof.
  intros Hi Hch.
  pose proof (frame_in_range _ _ _ _ Hi Hch) as Hlt.
  destruct (lookup_lt_is_Some_2 bs (2 * (i * c + ch))) as [lo Hlo]; [lia|].
  destruct (lookup_lt_is_Some_2 bs (2 * (i * c + ch) + 1)) as [hi Hhi];
    [lia|].
  exists lo, hi. split; [assumption|]. split; [assumption|].
  unfold deinterleave. rewrite list_lookup_fmap.
  rewrite lookup_seq_lt by assumption. simpl.
  rewrite nth_lookup, (int16s_lookup _ _ _ _ Hlo Hhi). reflexivity.
Qed.

End CodecProperties.

(** C2. For a byte buffer of even length L > 0 and a channel count c,
    [pcm16ToFloatBuffer] (the [decodeAudioData] of the application)
    succeeds with c channels of exactly L/2/c samples each; the sample i
    of the channel ch is the little-endian signed 16-bit integer at the
    bytes 2(i*c+ch) and 2(i*c+ch)+1 divided by 32768, and lies in
    [-1, 1). *)
Theorem C2_pcm16_sample_count_and_range
    (bytes : list byte) (rate : Z) (c : nat) :
  Nat.Even (length bytes) -> 0 < length bytes ->
  exists buf,
    AudioUtils.pcm16ToFloatBuffer bytes rate c = Ok buf /\
    length (channelData buf) = c /\
    forall ch, ch < c ->
      exists samples,
        channelData buf !! ch = Some samples /\
        length samples = length bytes / 2 / c /\
        forall i, i < length bytes / 2 / c ->
          exists lo hi q,
            bytes !! (2 * (i * c + ch)) = Some lo /\
            bytes !! (2 * (i * c + ch) + 1) = Some hi /\
            samples !! i = Some q /\
            q = (inject_Z (AudioUtils.int16le lo hi) / inject_Z 32768)%Q /\
            (inject_Z (-1) <= q)%Q /\ (q < inject_Z 1)%Q.
Proof.
  intros _ Hpos.
  destruct bytes as [|b0 rest] eqn:Hbytes; [simpl in Hpos; lia|].
  rewrite <- Hbytes in *. clear Hpos.
  eexists. split.
  { rewrite Hbytes at 1. unfold AudioUtils.pcm16ToFloatBuffer.
    rewrite <- Hbytes. reflexivity. }
  simpl. split.
  { rewrite length_fmap, length_seq. reflexivity. }
  intros ch Hch. eexists. split.
  { rewrite list_lookup_fmap, lookup_seq_lt by assumption. reflexivity. }
  simpl. split.
  { unfold AudioUtils.deinterleave.
    rewrite length_fmap, length_seq. reflexivity. }
  intros i Hi.
  destruct (deinterleave_lookup bytes c i ch Hi Hch)
    as (lo & hi & Hlo & Hhi & Hq).
  exists lo, hi, (AudioUtils.normalize (AudioUtils.int16le lo hi)).
  repeat split; try assumption.
  - apply normalize_range, int16le_range.
  - apply normalize_range, int16le_range.
Qed.

Lemma C2_pcm16_witness :
  exists buf,
    AudioUtils.pcm16ToFloatBuffer [x00; x00; xff; x7f] 24000 1 = Ok buf /\
    channelData buf !! 0 = Some [(0 # 32768)%Q; (32767 # 32768)%Q].
Proof.
  destruct (C2_pcm16_sample_count_and_range [x00; x00; xff; x7f] 24000 1)
    as (buf & Hbuf & _); [exists 2; reflexivity | simpl; lia |].
  exists buf. split; [exact Hbuf|].
  vm_compute in Hbuf. injection Hbuf as <-. reflexivity.
Defined.

(** ** The orchestration *)

Section AppProperties.
Import WebAudio GenAI Page GeminiService App.
Local Open Scope js_scope.
Context {codec : Codec}.

(** *** Rejected files *)

(** What [handleImageChange] does with a file that is not an image. *)
Lemma handleImageChange_reject (w : World) (file : File) (rest : list File) :
  JsString.startsWith (type file) (js "image/") = false ->
  handleImageChange (Some (file :: rest)) w
  = (Ok tt, with_status error' (with_error invalidImage w)).
Proof.
  intros Hty. unfold handleImageChange. simpl. rewrite Hty. reflexivity.
Qed.

Lemma dispatch_Change_enabled (w : World) (files : option (list File)) :
  input_disabled w = false ->
  step (Change files) w = handleImageChange files w.
Proof.
  intros Hen. unfold step, bind, gets. rewrite Hen. reflexivity.
Qed.

Lemma dispatch_Click_enabled (w : World) :
  button_disabled w = false ->
  step Click w = handleTogglePlayback w.
Proof.
  intros Hen. unfold step, bind, gets. rewrite Hen. reflexivity.
Qed.

Lemma dispatch_Click_disabled (w : World) :
  button_disabled w = true -> dispatch Click w = w.
Proof.
  intros Hdis. unfold dispatch, step, bind, gets. rewrite Hdis. reflexivity.
Qed.

(** *** The handler monad *)

Lemma bind_Ok {A B} (m : M A) (k : A -> M B) w a w' :
  m w = (Ok a, w') -> bind m k w = k a w'.
Proof. intros Hm. unfold bind. rewrite Hm. reflexivity. Qed.

Lemma bind_Throw {A B} (m : M A) (k : A -> M B) w e w' :
  m w = (Throw e, w') -> bind m k w = (Throw e, w').
Proof. intros Hm. unfold bind. rewrite Hm. reflexivity. Qed.

Lemma try_catch_Ok {A} (m : M A) h w a w' :
  m w = (Ok a, w') -> try_catch m h w = (Ok a, w').
Proof. intros Hm. unfold try_catch. rewrite Hm. reflexivity. Qed.

Lemma try_catch_Throw {A} (m : M A) h w e w' :
  m w = (Throw e, w') -> try_catch m h w = h e w'.
Proof. intros Hm. unfold try_catch. rewrite Hm. reflexivity. Qed.

Lemma speech_settled_rejected (e : Exn) (w : World) :
  generateSpeechFromText_settled (Rejected e) w
  = (Throw (JsError speechFailure),
     with_console (console w ++ [(Some speechLabel, e)]) w).
Proof. reflexivity. Qed.

Lemma speech_settled_noAudio (response : Response) (w : World) :
  noAudio response = true ->
  generateSpeechFromText_settled (Fulfilled response) w
  = (Throw (JsError speechFailure),
     with_console
       (console w ++
        [(Some speechLabel, JsError noAudioMessage)])
       w).
Proof.
  unfold noAudio, generateSpeechFromText_settled, try_catch, bind, await, ret.
  destruct (audioData response) as [a|]; [|reflexivity].
  destruct (JsString.truthy a); [discriminate|reflexivity].
Qed.

Lemma speech_settled_audio (response : Response) (a : jsstring) (w : World) :
  audioData response = Some a -> JsString.truthy a = true ->
  generateSpeechFromText_settled (Fulfilled response) w = (Ok a, w).
Proof.
  intros Ha Ht.
  unfold generateSpeechFromText_settled, try_catch, bind, await, ret.
  rewrite Ha, Ht. reflexivity.
Qed.

Lemma node_call_last (w : World) (g : Graph) (nd nd' : SourceNode) f :
  nodes w = g ++ [nd] -> f nd = Ok nd' ->
  node_call (length g) f w = (Ok tt, with_nodes (g ++ [nd']) w).
Proof.
  intros Hg Hf. unfold node_call, on_node. rewrite Hg.
  rewrite list_lookup_middle by reflexivity. rewrite Hf.
  rewrite insert_app_r_alt by lia. rewrite Nat.sub_diag. reflexivity.
Qed.

Lemma playback_ok (response : Response) (a : jsstring) (bytes : list byte)
    (b : AudioBuffer) (ctx : ContextState) (w : World) :
  audioData response = Some a -> JsString.truthy a = true ->
  decode a = Ok bytes -> decodeAudioData bytes 24000 1 = Ok b ->
  audioContextRef w = Some ctx ->
  playback (Fulfilled response) w
  = (Ok tt,
     with_status idle
       (with_isPlaying true
          (with_audioSourceRef (Some (length (nodes w)))
             (with_nodes (nodes w ++ [sounding b]) w)))).
Proof.
  intros Ha Ht Hd Hb Hctx. unfold playback.
  erewrite bind_Ok by (apply speech_settled_audio; eassumption).
  unfold lift at 1. erewrite bind_Ok by (rewrite Hd; reflexivity).
  unfold lift at 1. erewrite bind_Ok by (rewrite Hb; reflexivity).
  erewrite bind_Ok by (unfold new_source; rewrite Hctx; reflexivity).
  erewrite bind_Ok by (eapply node_call_last; reflexivity).
  erewrite bind_Ok by (eapply node_call_last; reflexivity).
  erewrite bind_Ok by (eapply node_call_last; reflexivity).
  erewrite bind_Ok by (eapply node_call_last; reflexivity).
  destruct w; reflexivity.
Qed.

(** Whatever makes [playback] throw, it has written to the console at
    most: no node was created and no state variable set. *)
Lemma playback_cases (s : Settlement) (w : World) :
  (exists e l, playback s w = (Throw e, with_console (console w ++ l) w))
  \/ (exists b,
        playback s w
        = (Ok tt,
           with_status idle
             (with_isPlaying true
                (with_audioSourceRef (Some (length (nodes w)))
                   (with_nodes (nodes w ++ [sounding b]) w))))).
Proof.
  assert (Hsame : forall (e : Exn),
             (Throw e, w) = (Throw e, with_console (console w ++ []) w)
             :> Result unit * World).
  { intros. rewrite app_nil_r. destruct w; reflexivity. }
  destruct s as [response | e].
  - destruct (noAudio response) eqn:Hno.
    + left. unfold playback.
      erewrite bind_Throw by (apply speech_settled_noAudio, Hno).
      eauto.
    + unfold noAudio in Hno.
      destruct (audioData response) as [a|] eqn:Ha; [|discriminate].
      apply negb_false_iff in Hno.
      destruct (decode a) as [bytes | e] eqn:Hd.
      2:{ left. exists e, []. unfold playback.
          erewrite bind_Ok by (apply speech_settled_audio; eassumption).
          unfold lift. erewrite bind_Throw by (rewrite Hd; reflexivity).
          apply Hsame. }
      destruct (decodeAudioData bytes 24000 1) as [b | e] eqn:Hb.
      2:{ left. exists e, []. unfold playback.
          erewrite bind_Ok by (apply speech_settled_audio; eassumption).
          unfold lift at 1. erewrite bind_Ok by (rewrite Hd; reflexivity).
          unfold lift. erewrite bind_Throw by (rewrite Hb; reflexivity).
          apply Hsame. }
      destruct (audioContextRef w) as [ctx|] eqn:Hctx.
      * right. exists b. eapply playback_ok; eassumption.
      * left. exists (TypeError []), []. unfold playback.
        erewrite bind_Ok by (apply speech_settled_audio; eassumption).
        unfold lift at 1. erewrite bind_Ok by (rewrite Hd; reflexivity).
        unfold lift at 1. erewrite bind_Ok by (rewrite Hb; reflexivity).
        erewrite bind_Throw
          by (unfold new_source; rewrite Hctx; reflexivity).
        apply Hsame.
  - left. unfold playback.
    erewrite bind_Throw by apply speech_settled_rejected. eauto.
Qed.

(** The three ways of the claim C4: the call is rejected, the base64
    text does not decode, the bytes are no audio. *)
Lemma playback_rejected (e : Exn) (w : World) :
  playback (Rejected e) w
  = (Throw (JsError speechFailure),
     with_console (console w ++ [(Some speechLabel, e)]) w).
Proof.
  unfold playback. erewrite bind_Throw by apply speech_settled_rejected.
  reflexivity.
Qed.

Lemma playback_decode_fails (response : Response) (a : jsstring) (e : Exn)
    (w : World) :
  audioData response = Some a -> JsString.truthy a = true ->
  decode a = Throw e ->
  playback (Fulfilled response) w = (Throw e, w).
Proof.
  intros Ha Ht Hd. unfold playback.
  erewrite bind_Ok by (apply speech_settled_audio; eassumption).
  unfold lift. erewrite bind_Throw by (rewrite Hd; reflexivity).
  reflexivity.
Qed.

Lemma playback_decodeAudioData_fails (response : Response) (a : jsstring)
    (bytes : list byte) (e : Exn) (w : World) :
  audioData response = Some a -> JsString.truthy a = true ->
  decode a = Ok bytes -> decodeAudioData bytes 24000 1 = Throw e ->
  playback (Fulfilled response) w = (Throw e, w).
Proof.
  intros Ha Ht Hd Hb. unfold playback.
  erewrite bind_Ok by (apply speech_settled_audio; eassumption).
  unfold lift at 1. erewrite bind_Ok by (rewrite Hd; reflexivity).
  unfold lift. erewrite bind_Throw by (rewrite Hb; reflexivity).
  reflexivity.
Qed.

Lemma handleTogglePlayback_catch_eq (e : Exn) (w : World) :
  handleTogglePlayback_catch e w
  = (Ok tt,
     with_isPlaying false
       (with_status error'
          (with_error audioFailed
             (with_console (console w ++ [(None, e)]) w)))).
Proof. reflexivity. Qed.

(** *** Rules for [keeps] *)

Section Rules.
Variable I : World -> Prop.

Lemma keeps_ret {A} (a : A) : keeps I (ret a).
Proof. intros w Hw. exact Hw. Qed.

Lemma keeps_throw {A} (e : Exn) : keeps I (@throw A e).
Proof. intros w Hw. exact Hw. Qed.

Lemma keeps_gets {A} (f : World -> A) : keeps I (gets f).
Proof. intros w Hw. exact Hw. Qed.

Lemma keeps_lift {A} (r : Result A) : keeps I (lift r).
Proof. intros w Hw. exact Hw. Qed.

Lemma keeps_modify (f : World -> World) :
(forall w, I w -> I (f w)) -> keeps I (modify f).
Proof. intros Hf w Hw. apply Hf, Hw. Qed.

Lemma keeps_bind {A B} (m : M A) (k : A -> M B) :
keeps I m -> (forall a, keeps I (k a)) -> keeps I (bind m k).
Proof.
intros Hm Hk w Hw. unfold bind. specialize (Hm w Hw).
destruct (m w) as [[a | e] w']; simpl in *; [apply Hk|]; assumption.
Qed.

Lemma keeps_bind_returns {A B} (m : M A) (k : A -> M B) (Q : A -> Prop) :
keeps I m -> returns m Q -> (forall a, Q a -> keeps I (k a)) ->
keeps I (bind m k).
Proof.
intros Hm HQ Hk w Hw. unfold bind. specialize (Hm w Hw).
destruct (m w) as [[a | e] w'] eqn:Hmw; simpl in *; [|assumption].
apply (Hk a); [eapply HQ; eassumption | assumption].
Qed.

Lemma keeps_try_catch {A} (m : M A) (h : Exn -> M A) :
keeps I m -> (forall e, keeps I (h e)) -> keeps I (try_catch m h).
Proof.
intros Hm Hh w Hw. unfold try_catch. specialize (Hm w Hw).
destruct (m w) as [[a | e] w']; simpl in *; [|apply Hh]; assumption.
Qed.

Lemma keeps_await (s : Settlement) : keeps I (await s).
Proof. destruct s; [apply keeps_ret | apply keeps_throw]. Qed.
End Rules.

Ltac keeps_tac :=
  repeat first
    [ apply keeps_ret | apply keeps_throw | apply keeps_gets
    | apply keeps_lift | apply keeps_await
    | apply keeps_bind | apply keeps_try_catch
    | apply keeps_modify; intros ? ?; assumption
    | progress intros
    | match goal with
      | |- keeps _ (match ?x with _ => _ end) => destruct x
      end ].

(** *** The invariant, handler by handler *)

Lemma trimmed_nil :
  ~ JsString.beginsWithWhiteSpace [] /\ ~ JsString.endsWithWhiteSpace [].
Proof.
  split.
  - intros (c & s' & Heq & _). discriminate.
  - intros (s' & c & Heq & _). destruct s'; discriminate.
Qed.

Lemma keeps_setStory_nil : keeps invariant (setStory []).
Proof.
  apply keeps_modify. intros w (H1 & H2 & H3).
  split; [exact H1|]. split; [exact H2|]. apply trimmed_nil.
Qed.

Lemma keeps_setIsPlaying_false : keeps invariant (setIsPlaying false).
Proof.
  apply keeps_modify. intros w (H1 & H2 & H3).
  split; [exact H1|]. split; [|exact H3]. intros Hp. discriminate.
Qed.

Lemma keeps_handleImageChange files :
  keeps invariant (handleImageChange files).
Proof.
  unfold handleImageChange, setError, setStatus, spawn. keeps_tac.
Qed.

Lemma keeps_generateSpeechFromText st :
  keeps invariant (generateSpeechFromText st).
Proof.
  unfold generateSpeechFromText, generateContent, spawn. keeps_tac.
Qed.

Lemma keeps_reader_onload file result :
  keeps invariant (reader_onload file result).
Proof.
  unfold reader_onload. apply keeps_bind; [unfold setImage; keeps_tac|].
  intros _. apply keeps_bind; [apply keeps_setStory_nil|].
  unfold generateStoryFromImage, setError, setStatus, generateContent, spawn.
  keeps_tac.
Qed.

Lemma keeps_catch e : keeps invariant (handleTogglePlayback_catch e).
Proof.
  unfold handleTogglePlayback_catch, console_error, setError, setStatus.
  repeat (apply keeps_bind; [keeps_tac | intros _]).
  apply keeps_setIsPlaying_false.
Qed.

Lemma keeps_source_onended : keeps invariant source_onended.
Proof.
  intros w (H1 & H2 & H3). unfold source_onended. simpl.
  split; [|split; [|exact H3]].
  - intros n Hn. discriminate.
  - intros Hp. discriminate.
Qed.


(** *** [trim] *)
Lemma trimStart_split (s : jsstring) :
  exists pre, s = pre ++ JsString.trimStart s /\
              Forall (fun c => JsString.isWhiteSpace c = true) pre.
Proof.
  induction s as [|c s (pre & Heq & Hpre)];
    [exists []; split; [reflexivity | constructor]|].
  simpl. destruct (JsString.isWhiteSpace c) eqn:Hc.
  - exists (c :: pre). split; [simpl; congruence | constructor; assumption].
  - exists []. split; [reflexivity | constructor].
Qed.

Lemma trimStart_begins (s : jsstring) :
  ~ JsString.beginsWithWhiteSpace (JsString.trimStart s).
Proof.
  induction s as [|c s IH]; simpl.
  - apply trimmed_nil.
  - destruct (JsString.isWhiteSpace c) eqn:Hc; [exact IH|].
    intros (c' & s' & Heq & Hws). injection Heq as <- <-. congruence.
Qed.

Lemma trimEnd_split (s : jsstring) :
  exists post, s = JsString.trimEnd s ++ post /\
               Forall (fun c => JsString.isWhiteSpace c = true) post.
Proof.
  destruct (trimStart_split (rev s)) as (pre & Heq & Hpre).
  exists (rev pre). split.
  - unfold JsString.trimEnd. rewrite <- rev_app_distr, <- Heq.
    symmetry. apply rev_involutive.
  - apply Forall_rev, Hpre.
Qed.

Lemma trimEnd_ends (s : jsstring) :
  ~ JsString.endsWithWhiteSpace (JsString.trimEnd s).
Proof.
  intros (s' & c & Heq & Hws). unfold JsString.trimEnd in Heq.
  apply (trimStart_begins (rev s)). exists c, (rev s'). split; [|exact Hws].
  rewrite <- (rev_involutive (JsString.trimStart (rev s))), Heq.
  rewrite rev_app_distr. reflexivity.
Qed.

Lemma trimEnd_begins (s : jsstring) :
  ~ JsString.beginsWithWhiteSpace s ->
  ~ JsString.beginsWithWhiteSpace (JsString.trimEnd s).
Proof.
  intros Hs (c & s' & Heq & Hws). apply Hs.
  destruct (trimEnd_split s) as (post & Hsplit & _).
  exists c, (s' ++ post). split; [|exact Hws].
  rewrite Hsplit at 1. rewrite Heq. reflexivity.
Qed.

Lemma trim_spec (s : jsstring) :
  exists pre post,
    s = pre ++ JsString.trim s ++ post /\
    Forall (fun c => JsString.isWhiteSpace c = true) pre /\
    Forall (fun c => JsString.isWhiteSpace c = true) post /\
    ~ JsString.beginsWithWhiteSpace (JsString.trim s) /\
    ~ JsString.endsWithWhiteSpace (JsString.trim s).
Proof.
  destruct (trimStart_split s) as (pre & Hpre & Hws1).
  destruct (trimEnd_split (JsString.trimStart s)) as (post & Hpost & Hws2).
  exists pre, post. unfold JsString.trim. repeat split; try assumption.
  - rewrite <- Hpost. exact Hpre.
  - apply trimEnd_begins, trimStart_begins.
  - apply trimEnd_ends.
Qed.

Lemma story_settled_returns (s : Settlement) :
  returns (generateStoryFromImage_settled s)
          (fun a => ~ JsString.beginsWithWhiteSpace a /\
                    ~ JsString.endsWithWhiteSpace a).
Proof.
  intros w a w' Hrun.
  unfold generateStoryFromImage_settled, try_catch, bind, await in Hrun.
  destruct s as [response | e]; simpl in Hrun; [|discriminate].
  destruct (text response) as [t|]; simpl in Hrun; [|discriminate].
  injection Hrun as <- _.
  destruct (trim_spec t) as (_ & _ & _ & _ & _ & Hb & He). split; assumption.
Qed.

Lemma keeps_story_settled (s : Settlement) :
  keeps invariant (generateStoryFromImage_settled s).
Proof.
  unfold generateStoryFromImage_settled, console_error. keeps_tac.
Qed.

Lemma keeps_reader_onload_settled (s : Settlement) :
  keeps invariant (reader_onload_settled s).
Proof.
  unfold reader_onload_settled. apply keeps_try_catch.
  - eapply keeps_bind_returns;
      [apply keeps_story_settled | apply story_settled_returns |].
    intros a Ha. apply keeps_bind.
    + apply keeps_modify. intros w (H1 & H2 & H3).
      split; [exact H1|]. split; [exact H2|exact Ha].
    + intros _. unfold setStatus. keeps_tac.
  - intros e. unfold console_error, setError, setStatus. keeps_tac.
Qed.

Lemma keeps_node_call (n : nat) f :
  started_mono f -> keeps invariant (node_call n f).
Proof.
  intros Hf w (H1 & H2 & H3). unfold node_call, on_node.
  destruct (nodes w !! n) as [nd|] eqn:Hn;
    [|exact (conj H1 (conj H2 H3))].
  destruct (f nd) as [nd'|e] eqn:Hfn; [|exact (conj H1 (conj H2 H3))].
  simpl. split; [|exact (conj H2 H3)].
  intros m Hm. destruct (H1 m Hm) as (nd0 & Hnd0 & Hst). simpl.
  destruct (decide (n = m)) as [->|Hne].
  - rewrite list_lookup_insert_eq by (eapply lookup_lt_Some; eassumption).
    exists nd'. split; [reflexivity|].
    apply (Hf nd nd' Hfn). congruence.
  - rewrite list_lookup_insert_ne by assumption. eauto.
Qed.

Lemma stopPlayback_none (w : World) :
  audioSourceRef w = None ->
  stopPlayback w = (Ok tt, with_isPlaying false w).
Proof.
  intros Href. unfold stopPlayback, bind, gets. rewrite Href. reflexivity.
Qed.

Lemma stopPlayback_some (w : World) (n : nat) (nd : SourceNode) :
  audioSourceRef w = Some n -> nodes w !! n = Some nd ->
  started nd = true ->
  stopPlayback w
  = (Ok tt,
     with_isPlaying false
       (with_audioSourceRef None
          (with_nodes
             (<[n := with_connected false (with_finished nd)]> (nodes w))
             w))).
Proof.
  intros Href Hn Hst. unfold stopPlayback, bind, gets. rewrite Href.
  unfold node_call at 1, on_node, stop. rewrite Hn, Hst.
  unfold node_call, on_node, disconnect. simpl.
  rewrite list_lookup_insert_eq by (eapply lookup_lt_Some; eassumption).
  rewrite list_insert_insert_eq. destruct w; reflexivity.
Qed.

Lemma keeps_stopPlayback : keeps invariant stopPlayback.
Proof.
  intros w (H1 & H2 & H3).
  destruct (audioSourceRef w) as [n|] eqn:Href.
  - destruct (H1 n Href) as (nd & Hn & Hst).
    rewrite (stopPlayback_some w n nd Href Hn Hst). simpl.
    split; [|split; [|exact H3]].
    + intros m Hm. discriminate.
    + intros Hp. discriminate.
  - rewrite (stopPlayback_none w Href). simpl.
    split; [exact H1|]. split; [|exact H3]. intros Hp. discriminate.
Qed.


Lemma keeps_playback (s : Settlement) : keeps invariant (playback s).
Proof.
  intros w (H1 & H2 & H3).
  destruct (playback_cases s w) as [(e & l & Hc) | (b & Hc)]; rewrite Hc.
  - exact (conj H1 (conj H2 H3)).
  - simpl. split; [|split; [|exact H3]].
    + intros n Hn. injection Hn as <-. exists (sounding b). simpl.
      split; [|reflexivity]. apply list_lookup_middle. reflexivity.
    + intros _. discriminate.
Qed.

Lemma keeps_handleTogglePlayback_settled (s : Settlement) :
  keeps invariant (handleTogglePlayback_settled s).
Proof.
  apply keeps_try_catch; [apply keeps_playback | apply keeps_catch].
Qed.

Lemma keeps_handleTogglePlayback_resumed (st : jsstring) (r : Result unit) :
  keeps invariant (handleTogglePlayback_resumed st r).
Proof.
  apply keeps_try_catch; [|apply keeps_catch].
  unfold set_audioContextRef.
  do 2 (apply keeps_bind; [keeps_tac | intros _]).
  apply keeps_generateSpeechFromText.
Qed.

Lemma keeps_handleTogglePlayback : keeps invariant handleTogglePlayback.
Proof.
  unfold handleTogglePlayback.
  apply keeps_bind; [apply keeps_gets | intros playing].
  apply keeps_bind; [apply keeps_gets | intros st].
  destruct playing; [apply keeps_stopPlayback|].
  destruct (negb (JsString.truthy st)); [apply keeps_ret|].
  unfold setStatus, setError, set_audioContextRef, new_AudioContext, spawn.
  do 2 (apply keeps_bind; [keeps_tac | intros _]).
  apply keeps_try_catch; [|apply keeps_catch].
  apply keeps_bind; [keeps_tac | intros current].
  apply keeps_bind; [keeps_tac | intros _].
  apply keeps_bind; [keeps_tac | intros [[|]|]].
  - apply keeps_generateSpeechFromText.
  - keeps_tac.
  - keeps_tac.
Qed.

Lemma keeps_fire_ended (n : nat) : keeps invariant (fire_ended n).
Proof.
  unfold fire_ended. apply keeps_bind; [apply keeps_gets | intros g].
  destruct (g !! n) as [nd|]; [|apply keeps_ret].
  destruct (started nd && negb (dispatched nd)); [|apply keeps_ret].
  apply keeps_bind.
  - apply keeps_node_call. intros nd0 nd' Heq Hst.
    injection Heq as <-. exact Hst.
  - intros _. destruct (onended nd);
      [apply keeps_source_onended | apply keeps_ret].
Qed.

Lemma keeps_step (ev : Event) : keeps invariant (step ev).
Proof.
  unfold step.
  apply keeps_bind; [apply keeps_gets | intros pending].
  apply keeps_bind; [apply keeps_gets | intros di].
  apply keeps_bind; [apply keeps_gets | intros db].
  destruct ev as [files | | t result | t s | t r | n | st | st].
  - destruct di; [apply keeps_ret | apply keeps_handleImageChange].
  - destruct db; [apply keeps_ret | apply keeps_handleTogglePlayback].
  - destruct (pending !! t) as [[[file| | |]|]|]; try apply keeps_ret.
    unfold settle. apply keeps_bind; [keeps_tac | intros _].
    apply keeps_reader_onload.
  - destruct (pending !! t) as [[[| | |]|]|]; try apply keeps_ret.
    + unfold settle. apply keeps_bind; [keeps_tac | intros _].
      apply keeps_reader_onload_settled.
    + unfold settle. apply keeps_bind; [keeps_tac | intros _].
      apply keeps_handleTogglePlayback_settled.
  - destruct (pending !! t) as [[[| |st|]|]|]; try apply keeps_ret.
    unfold settle. apply keeps_bind; [keeps_tac | intros _].
    apply keeps_handleTogglePlayback_resumed.
  - apply keeps_fire_ended.
  - unfold set_audioContextRef. keeps_tac.
  - keeps_tac.
Qed.

Lemma invariant_dispatch (ev : Event) (w : World) :
  invariant w -> invariant (dispatch ev w).
Proof.
  intros Hw. unfold dispatch. pose proof (keeps_step ev w Hw) as Hstep.
  destruct (step ev w) as [[u | e] w']; exact Hstep.
Qed.

Lemma invariant_init : invariant init.
Proof.
  split; [|split].
  - intros n Hn. discriminate.
  - intros Hp. discriminate.
  - apply trimmed_nil.
Qed.

Lemma invariant_run (evs : list Event) :
  forall w, invariant w -> invariant (run evs w).
Proof.
  induction evs as [|ev evs IH]; intros w Hw; simpl; [exact Hw|].
  apply IH, invariant_dispatch, Hw.
Qed.

(** *** The life of the Story *)

Lemma story_settled_text (s : Settlement) (txt : jsstring) (w : World) :
  settledText s = Some txt ->
  generateStoryFromImage_settled s w = (Ok (JsString.trim txt), w).
Proof.
  intros Ht. destruct s as [response | e]; [|discriminate].
  simpl in Ht. unfold generateStoryFromImage_settled, try_catch, bind, await.
  simpl. rewrite Ht. reflexivity.
Qed.

Lemma story_settled_no_text (s : Settlement) (w : World) :
  settledText s = None ->
  exists e,
    generateStoryFromImage_settled s w
    = (Throw (JsError storyFailure),
       with_console (console w ++ [(Some storyLabel, e)]) w).
Proof.
  intros Ht. destruct s as [response | e].
  - simpl in Ht. eexists.
    unfold generateStoryFromImage_settled, try_catch, bind, await.
    simpl. rewrite Ht. reflexivity.
  - exists e. reflexivity.
Qed.

Lemma reader_onload_eq (file : File) (result : jsstring) (w : World) :
  reader_onload file result w
  = generateStoryFromImage result (type file)
      (with_status loadingStory
         (with_error [] (with_story [] (with_image (Some result) w)))).
Proof. reflexivity. Qed.

Lemma reader_onload_settled_text (s : Settlement) (txt : jsstring)
    (w : World) :
  settledText s = Some txt ->
  reader_onload_settled s w
  = (Ok tt, with_status idle (with_story (JsString.trim txt) w)).
Proof.
  intros Ht. unfold reader_onload_settled.
  erewrite try_catch_Ok; [reflexivity|].
  erewrite bind_Ok by (apply story_settled_text, Ht). reflexivity.
Qed.

Lemma reader_onload_settled_no_text (s : Settlement) (w : World) :
  settledText s = None ->
  exists l,
    reader_onload_settled s w
    = (Ok tt,
       with_status error'
         (with_error storyFailed (with_console (console w ++ l) w))).
Proof.
  intros Ht. destruct (story_settled_no_text s w Ht) as (e & He).
  exists [(Some storyLabel, e); (None, JsError storyFailure)].
  unfold reader_onload_settled.
  erewrite try_catch_Throw by (erewrite bind_Throw by exact He; reflexivity).
  unfold console_error, setError, setStatus, bind, modify. simpl.
  rewrite <- app_assoc. reflexivity.
Qed.

Lemma step_Load (w : World) (t : nat) (file : File) (result : jsstring) :
  tasks w !! t = Some (Some (FileRead file)) ->
  step (Load t result) w
  = reader_onload file result (with_tasks (<[t := None]> (tasks w)) w).
Proof.
  intros Ht. unfold step, bind, gets. rewrite Ht. reflexivity.
Qed.

Lemma step_Respond_story (w : World) (t : nat) (b m : jsstring)
    (s : Settlement) :
  tasks w !! t = Some (Some (StoryCall b m)) ->
  step (Respond t s) w
  = reader_onload_settled s (with_tasks (<[t := None]> (tasks w)) w).
Proof.
  intros Ht. unfold step, bind, gets. rewrite Ht. reflexivity.
Qed.

(** The handlers that do not write the Story. *)
Section StoryFrame.
Variable c : jsstring.
Let P (w : World) : Prop := story w = c.

Lemma story_node_call (n : nat) f : keeps P (node_call n f).
Proof.
  intros w Hw. unfold node_call.
  destruct (on_node n f (nodes w)); exact Hw.
Qed.

Lemma story_new_source : keeps P new_source.
Proof.
  intros w Hw. unfold new_source.
  destruct (audioContextRef w); exact Hw.
Qed.

Ltac story_tac :=
  repeat first
    [ apply story_node_call | apply story_new_source | progress keeps_tac ].

Lemma story_handleImageChange files : keeps P (handleImageChange files).
Proof.
  unfold handleImageChange, setError, setStatus, spawn. story_tac.
Qed.

Lemma story_stopPlayback : keeps P stopPlayback.
Proof.
  unfold stopPlayback, set_audioSourceRef, setIsPlaying. story_tac.
Qed.

Lemma story_catch e : keeps P (handleTogglePlayback_catch e).
Proof.
  unfold handleTogglePlayback_catch, console_error, setError, setStatus,
    setIsPlaying.
  story_tac.
Qed.

Lemma story_generateSpeechFromText st : keeps P (generateSpeechFromText st).
Proof.
  unfold generateSpeechFromText, generateContent, spawn. story_tac.
Qed.

Lemma story_handleTogglePlayback : keeps P handleTogglePlayback.
Proof.
  unfold handleTogglePlayback.
  apply keeps_bind; [apply keeps_gets | intros playing].
  apply keeps_bind; [apply keeps_gets | intros st].
  destruct playing; [apply story_stopPlayback|].
  destruct (negb (JsString.truthy st)); [apply keeps_ret|].
  unfold setStatus, setError, set_audioContextRef, new_AudioContext, spawn.
  do 2 (apply keeps_bind; [keeps_tac | intros _]).
  apply keeps_try_catch; [|apply story_catch].
  apply keeps_bind; [keeps_tac | intros current].
  apply keeps_bind; [keeps_tac | intros _].
  apply keeps_bind; [keeps_tac | intros [[|]|]].
  - apply story_generateSpeechFromText.
  - keeps_tac.
  - keeps_tac.
Qed.

Lemma story_playback (s : Settlement) : keeps P (playback s).
Proof.
  intros w Hw.
  destruct (playback_cases s w) as [(e & l & Hc) | (b & Hc)]; rewrite Hc;
    exact Hw.
Qed.

Lemma story_fire_ended (n : nat) : keeps P (fire_ended n).
Proof.
  unfold fire_ended, source_onended, setIsPlaying, set_audioSourceRef.
  story_tac.
Qed.

Lemma story_reader_onload_failed (s : Settlement) :
  settledText s = None -> keeps P (reader_onload_settled s).
Proof.
  intros Ht w Hw.
  destruct (reader_onload_settled_no_text s w Ht) as (l & ->). exact Hw.
Qed.
End StoryFrame.

Lemma dispatch_Ok (ev : Event) (w w' : World) :
  step ev w = (Ok tt, w') -> dispatch ev w = w'.
Proof. intros Hs. unfold dispatch. rewrite Hs. reflexivity. Qed.

Lemma story_dispatch (ev : Event) (w : World) :
  story (dispatch ev w) = story (snd (step ev w)).
Proof. unfold dispatch. destruct (step ev w) as [[u|e] w']; reflexivity. Qed.

Lemma story_step_other (ev : Event) (w : World) :
  match ev with
  | Load t _ =>
      match tasks w !! t with
      | Some (Some (FileRead _)) => False
      | _ => True
      end
  | Respond t s =>
      match tasks w !! t with
      | Some (Some (StoryCall _ _)) => settledText s = None
      | _ => True
      end
  | _ => True
  end ->
  story (snd (step ev w)) = story w.
Proof.
  intros Hev. unfold step, bind, gets.
  destruct ev as [files | | t result | t s | t r | n | st | st].
  - destruct (input_disabled w); [reflexivity|].
    apply (story_handleImageChange (story w) files w). reflexivity.
  - destruct (button_disabled w); [reflexivity|].
    apply (story_handleTogglePlayback (story w) w). reflexivity.
  - destruct (tasks w !! t) as [[[file| | |]|]|]; try reflexivity.
    contradiction.
  - destruct (tasks w !! t) as [[[| | |]|]|]; try reflexivity.
    + apply (story_reader_onload_failed (story w) s Hev). reflexivity.
    + refine (keeps_try_catch _ _ _ (story_playback (story w) s)
                (story_catch (story w)) _ _). reflexivity.
  - destruct (tasks w !! t) as [[[| |st|]|]|]; try reflexivity.
    assert (Hk : keeps (fun w' => story w' = story w)
                   (handleTogglePlayback_resumed st r)).
    { apply keeps_try_catch; [|apply story_catch].
      unfold set_audioContextRef.
      do 2 (apply keeps_bind; [keeps_tac | intros _]).
      apply story_generateSpeechFromText. }
    apply Hk. reflexivity.
  - apply (story_fire_ended (story w) n w). reflexivity.
  - destruct (audioContextRef w); reflexivity.
  - reflexivity.
Qed.

Lemma story_changes_only (ev : Event) (w : World) :
  story (dispatch ev w) <> story w ->
  (exists t file result,
      ev = Load t result /\
      tasks w !! t = Some (Some (FileRead file)) /\
      story (dispatch ev w) = [])
  \/ (exists t b m s txt,
        ev = Respond t s /\
        tasks w !! t = Some (Some (StoryCall b m)) /\
        settledText s = Some txt /\
        story (dispatch ev w) = JsString.trim txt).
Proof.
  intros Hne. rewrite story_dispatch in *.
  destruct ev as [files | | t result | t s | t r | n | st | st];
    try (exfalso; apply Hne; apply story_step_other; exact I).
  - destruct (tasks w !! t) as [[[file| | |]|]|] eqn:Ht;
      try (exfalso; apply Hne; apply story_step_other; rewrite Ht; exact I).
    left. exists t, file, result. split; [reflexivity|]. split; [exact Ht|].
    rewrite (step_Load _ _ _ _ Ht). reflexivity.
  - destruct (tasks w !! t) as [[[|b m| |]|]|] eqn:Ht;
      try (exfalso; apply Hne; apply story_step_other; rewrite Ht; exact I).
    destruct (settledText s) as [txt|] eqn:Hs.
    + right. exists t, b, m, s, txt.
      repeat (split; [first [reflexivity | assumption]|]).
      rewrite (step_Respond_story _ _ _ _ _ Ht).
      rewrite (reader_onload_settled_text _ _ _ Hs). reflexivity.
    + exfalso. apply Hne. apply story_step_other. rewrite Ht. exact Hs.
Qed.
End AppProperties.

(** C3. A selected file whose MIME type does not start with "image/"
    takes the orchestrator directly to the Error state with the message
    "Please upload a valid image file."; no request is sent to the
    service and no file read is scheduled whose completion could send
    one. The same holds of the change event of the enabled file input. *)
Theorem C3_non_image_goes_to_error
    (w : Page.World) (file : Page.File) (rest : list Page.File) :
  JsString.startsWith (Page.type file) (js "image/") = false ->
  exists w',
    App.handleImageChange (Some (file :: rest)) w = (Ok tt, w') /\
    Page.status w' = Page.error' /\
    Page.error w' = js "Please upload a valid image file." /\
    Page.requests w' = Page.requests w /\
    Page.tasks w' = Page.tasks w /\
    (App.input_disabled w = false ->
     forall codec : Codec,
       App.dispatch (App.Change (Some (file :: rest))) w = w').
Proof.
  intros Hty. eexists. split.
  { apply handleImageChange_reject, Hty. }
  repeat split.
  intros Hen codec. unfold App.dispatch.
  rewrite dispatch_Change_enabled by assumption.
  rewrite handleImageChange_reject by assumption. reflexivity.
Qed.

Lemma C3_non_image_witness :
  exists w',
    App.handleImageChange (Some [Scenario.pdf]) Page.init = (Ok tt, w') /\
    Page.status w' = Page.error' /\
    Page.requests w' = [].
Proof.
  destruct (C3_non_image_goes_to_error Page.init Scenario.pdf [])
    as (w' & Hrun & Hst & _ & Hreq & _); [reflexivity|].
  exists w'. repeat split; assumption.
Defined.

(** C10. A rejected file changes the error message and the status and
    nothing else: the image, the Story, the Playing flag, the reference
    to the active source, the audio graph with its sessions, the pending
    tasks and the requests sent are as before. *)
Theorem C10_rejection_frame
    (w : Page.World) (file : Page.File) (rest : list Page.File) :
  JsString.startsWith (Page.type file) (js "image/") = false ->
  exists w',
    App.handleImageChange (Some (file :: rest)) w = (Ok tt, w') /\
    w' = Page.with_status Page.error'
           (Page.with_error (js "Please upload a valid image file.") w) /\
    Page.image w' = Page.image w /\
    Page.story w' = Page.story w /\
    Page.isPlaying w' = Page.isPlaying w /\
    Page.audioSourceRef w' = Page.audioSourceRef w /\
    Page.audioContextRef w' = Page.audioContextRef w /\
    Page.nodes w' = Page.nodes w /\
    App.sessions w' = App.sessions w /\
    App.button_disabled w' = negb (JsString.truthy (Page.story w)).
Proof.
  intros Hty. eexists. split.
  { apply handleImageChange_reject, Hty. }
  repeat split.
  unfold App.button_disabled. simpl. apply orb_false_r.
Qed.

Lemma C10_rejection_witness :
  exists w',
    App.handleImageChange (Some [Scenario.pdf]) Page.init = (Ok tt, w') /\
    Page.story w' = Page.story Page.init /\
    Page.image w' = Page.image Page.init.
Proof.
  destruct (C10_rejection_frame Page.init Scenario.pdf [])
    as (w' & Hrun & _ & Him & Hst & _); [reflexivity|].
  exists w'. repeat split; assumption.
Defined.

(** C6. While the Story is empty, and while story generation is in
    progress (status [loadingStory]), the playback button is disabled: a
    click changes nothing in the page, so no request is sent and no task
    is started. The handler has the first guard itself: called with an
    empty Story while nothing plays, it returns at once. *)
Theorem C6_toggle_ignored (codec : Codec) (w : Page.World) :
  JsString.truthy (Page.story w) = false \/ Page.status w = Page.loadingStory ->
  App.dispatch App.Click w = w /\
  Page.requests (App.dispatch App.Click w) = Page.requests w /\
  Page.tasks (App.dispatch App.Click w) = Page.tasks w /\
  (Page.isPlaying w = false -> JsString.truthy (Page.story w) = false ->
   App.handleTogglePlayback w = (Ok tt, w)).
Proof.
  intros Hcase.
  assert (Hsame : App.dispatch App.Click w = w).
  { apply dispatch_Click_disabled. unfold App.button_disabled.
    destruct Hcase as [Hs | Hs]; rewrite Hs; simpl.
    - reflexivity.
    - apply orb_true_r. }
  rewrite Hsame. repeat split.
  intros Hp Hs. unfold App.handleTogglePlayback, Page.bind, Page.gets.
  rewrite Hp, Hs. reflexivity.
Qed.

Lemma C6_toggle_ignored_witness :
  @App.dispatch specCodec App.Click Page.init = Page.init.
Proof.
  apply (proj1 (C6_toggle_ignored specCodec Page.init
                  (or_introl eq_refl))).
Defined.

(** C4. When the audio phase fails, that is when the code between the
    settled speech call and the start of the source throws (a rejected
    call, a response without audio, a base64 text that does not decode,
    bytes that are no audio) or when resuming the audio context is
    rejected, the handler catches the exception: the status is Error,
    the message is the one generic "Failed to generate audio. Please try
    again.", the exception itself goes to the console only, and Playing
    is false. No source node was created on the way. *)
Theorem C4_audio_failure_is_generic_error (codec : Codec) (w : Page.World) :
  (forall s e w1,
     App.playback s w = (Throw e, w1) ->
     exists w2,
       App.handleTogglePlayback_settled s w = (Ok tt, w2) /\
       Page.status w2 = Page.error' /\
       Page.error w2 = js "Failed to generate audio. Please try again." /\
       Page.isPlaying w2 = false /\
       Page.console w2 = Page.console w1 ++ [(None, e)] /\
       Page.nodes w2 = Page.nodes w /\
       Page.audioSourceRef w2 = Page.audioSourceRef w) /\
  (forall story e,
     exists w2,
       App.handleTogglePlayback_resumed story (Throw e) w = (Ok tt, w2) /\
       Page.status w2 = Page.error' /\
       Page.error w2 = js "Failed to generate audio. Please try again." /\
       Page.isPlaying w2 = false /\
       Page.console w2 = Page.console w ++ [(None, e)] /\
       Page.requests w2 = Page.requests w /\
       Page.nodes w2 = Page.nodes w).
Proof.
  split.
  - intros s e w1 Hthrow. eexists. split.
    { unfold App.handleTogglePlayback_settled.
      erewrite try_catch_Throw by exact Hthrow.
      apply handleTogglePlayback_catch_eq. }
    destruct (playback_cases s w) as [(e' & l & Hc) | (b & Hc)];
      rewrite Hc in Hthrow; [|discriminate].
    injection Hthrow as -> <-. repeat split.
  - intros story e. eexists. split; [reflexivity|]. repeat split.
Qed.

Lemma C4_audio_failure_witness :
  exists w2,
    @App.handleTogglePlayback_settled specCodec
      (GenAI.Rejected (NetworkError (js "offline"))) Page.init = (Ok tt, w2) /\
    Page.status w2 = Page.error' /\
    Page.isPlaying w2 = false.
Proof.
  destruct (proj1 (C4_audio_failure_is_generic_error specCodec Page.init)
              (GenAI.Rejected (NetworkError (js "offline")))
              _ _ (playback_rejected _ _))
    as (w2 & Hrun & Hst & _ & Hpl & _).
  exists w2. repeat split; assumption.
Defined.

(** C5. A response of the speech service without audio payload makes
    [generateSpeechFromText] fail with its service error; the handler
    ends in the Error state with Playing false, and neither a source
    node nor a reference to one is created: the sessions are those of
    before. *)
Theorem C5_no_audio_payload
    (codec : Codec) (response : GenAI.Response) (w : Page.World) :
  GeminiService.noAudio response = true ->
  exists w1 w2,
    GeminiService.generateSpeechFromText_settled (GenAI.Fulfilled response) w
    = (Throw (JsError GeminiService.speechFailure), w1) /\
    App.handleTogglePlayback_settled (GenAI.Fulfilled response) w
    = (Ok tt, w2) /\
    Page.status w2 = Page.error' /\
    Page.isPlaying w2 = false /\
    Page.nodes w2 = Page.nodes w /\
    Page.audioSourceRef w2 = Page.audioSourceRef w /\
    App.sessions w2 = App.sessions w.
Proof.
  intros Hno. eexists. eexists. split.
  { apply speech_settled_noAudio, Hno. }
  split.
  { unfold App.handleTogglePlayback_settled, App.playback.
    erewrite try_catch_Throw
      by (erewrite bind_Throw by (apply speech_settled_noAudio, Hno);
          reflexivity).
    apply handleTogglePlayback_catch_eq. }
  repeat split.
Qed.

Lemma C5_no_audio_payload_witness :
  exists w2,
    @App.handleTogglePlayback_settled specCodec
      (GenAI.Fulfilled Scenario.emptyResponse) Page.init = (Ok tt, w2) /\
    Page.status w2 = Page.error' /\
    Page.nodes w2 = [].
Proof.
  destruct (C5_no_audio_payload specCodec Scenario.emptyResponse Page.init)
    as (w1 & w2 & _ & Hrun & Hst & _ & Hn & _); [reflexivity|].
  exists w2. repeat split; assumption.
Defined.

(** C7. [stopPlayback] never throws in a page reached from the initial
    one, and a second call changes nothing. A source held by
    [audioSourceRef] is stopped and disconnected and the reference is
    cleared; Playing is false afterwards; without a source and with
    Playing already false the call changes nothing at all. While Playing
    is set there is a source to stop. *)
Theorem C7_stopPlayback_idempotent (codec : Codec) (evs : list App.Event) :
  exists w1,
    App.stopPlayback (App.run evs Page.init) = (Ok tt, w1) /\
    Page.isPlaying w1 = false /\
    Page.audioSourceRef w1 = None /\
    (forall n,
       Page.audioSourceRef (App.run evs Page.init) = Some n ->
       exists nd,
         Page.nodes w1 !! n = Some nd /\
         WebAudio.rendering nd = false /\
         WebAudio.connected nd = false) /\
    (Page.isPlaying (App.run evs Page.init) = true ->
     Page.audioSourceRef (App.run evs Page.init) <> None) /\
    (Page.audioSourceRef (App.run evs Page.init) = None ->
     Page.isPlaying (App.run evs Page.init) = false ->
     w1 = App.run evs Page.init) /\
    App.stopPlayback w1 = (Ok tt, w1).
Proof.
  pose proof (invariant_run evs Page.init invariant_init) as (H1 & H2 & _).
  set (w := App.run evs Page.init) in *.
  destruct (Page.audioSourceRef w) as [n|] eqn:Href.
  - destruct (H1 n Href) as (nd & Hn & Hst).
    eexists. split; [apply (stopPlayback_some w n nd Href Hn Hst)|].
    split; [reflexivity|]. split; [reflexivity|]. split.
    { intros m Hm. injection Hm as <-. eexists. split.
      - simpl. apply list_lookup_insert_eq. eapply lookup_lt_Some, Hn.
      - split; [|reflexivity]. unfold WebAudio.rendering. simpl.
        apply andb_false_r. }
    split; [intros _; discriminate|]. split; [discriminate|].
    rewrite stopPlayback_none by reflexivity. reflexivity.
  - eexists. split; [apply (stopPlayback_none w Href)|].
    split; [reflexivity|]. split; [exact Href|]. split; [discriminate|].
    split; [intros Hp; apply H2 in Hp; congruence|]. split.
    + intros _ Hp. destruct w; simpl in *. subst. reflexivity.
    + rewrite stopPlayback_none by exact Href. reflexivity.
Qed.

(** C9. A story call succeeds exactly when the response has a text, and
    the string [generateStoryFromImage] then returns is the text with
    its leading and trailing white space removed: the text is the
    returned string between two runs of white space, and the returned
    string neither begins nor ends with white space. After every
    sequence of events the stored Story neither begins nor ends with
    white space. *)
Theorem C9_story_is_trimmed_response_text (codec : Codec) :
  (forall s w,
     match GenAI.settledText s with
     | Some t =>
         GeminiService.generateStoryFromImage_settled s w
         = (Ok (JsString.trim t), w)
     | None =>
         exists e w',
           GeminiService.generateStoryFromImage_settled s w = (Throw e, w')
     end) /\
  (forall t : jsstring,
     exists pre post,
       t = pre ++ JsString.trim t ++ post /\
       Forall (fun c => JsString.isWhiteSpace c = true) pre /\
       Forall (fun c => JsString.isWhiteSpace c = true) post /\
       ~ JsString.beginsWithWhiteSpace (JsString.trim t) /\
       ~ JsString.endsWithWhiteSpace (JsString.trim t)) /\
  (forall evs,
     ~ JsString.beginsWithWhiteSpace (Page.story (App.run evs Page.init)) /\
     ~ JsString.endsWithWhiteSpace (Page.story (App.run evs Page.init))).
Proof.
  split; [|split].
  - intros s w. destruct (GenAI.settledText s) as [t|] eqn:Hs.
    + apply story_settled_text, Hs.
    + destruct (story_settled_no_text s w Hs) as (e & He). eauto.
  - apply trim_spec.
  - intros evs.
    pose proof (invariant_run evs Page.init invariant_init) as (_ & _ & H3).
    exact H3.
Qed.

(** C8. The Story over the selection of an image. When the file has been
    read, the handler clears the Story and only then, with the Story
    empty, issues the story call. When that call settles with a text,
    the Story is the generated text and the status Idle. When it
    fails, the Story is left as it is and the status is Error: a Story
    cleared by the selection is still empty after the failure of its
    call. No other event changes the Story. *)
Theorem C8_story_cleared_then_set_on_success
    (codec : Codec) (w : Page.World) :
  (forall t file result,
     Page.tasks w !! t = Some (Some (Page.FileRead file)) ->
     exists w0,
       Page.story w0 = [] /\
       Page.requests w0 = Page.requests w /\
       App.step (App.Load t result) w
       = GeminiService.generateStoryFromImage result (Page.type file) w0 /\
       Page.story (App.dispatch (App.Load t result) w) = [] /\
       Page.status (App.dispatch (App.Load t result) w) = Page.loadingStory /\
       length (Page.requests (App.dispatch (App.Load t result) w))
       = S (length (Page.requests w)) /\
       Page.tasks (App.dispatch (App.Load t result) w)
       = <[t := None]> (Page.tasks w)
         ++ [Some (Page.StoryCall result (Page.type file))]) /\
  (forall t b m s txt,
     Page.tasks w !! t = Some (Some (Page.StoryCall b m)) ->
     GenAI.settledText s = Some txt ->
     Page.story (App.dispatch (App.Respond t s) w) = JsString.trim txt /\
     Page.status (App.dispatch (App.Respond t s) w) = Page.idle) /\
  (forall t b m s,
     Page.tasks w !! t = Some (Some (Page.StoryCall b m)) ->
     GenAI.settledText s = None ->
     Page.story (App.dispatch (App.Respond t s) w) = Page.story w /\
     Page.status (App.dispatch (App.Respond t s) w) = Page.error' /\
     Page.error (App.dispatch (App.Respond t s) w)
     = js "Failed to generate story. Please try again.") /\
  (forall t file result s,
     Page.tasks w !! t = Some (Some (Page.FileRead file)) ->
     GenAI.settledText s = None ->
     Page.story
       (App.run [App.Load t result; App.Respond (length (Page.tasks w)) s] w)
     = []) /\
  (forall ev,
     Page.story (App.dispatch ev w) <> Page.story w ->
     (exists t file result,
         ev = App.Load t result /\
         Page.tasks w !! t = Some (Some (Page.FileRead file)) /\
         Page.story (App.dispatch ev w) = [])
     \/ (exists t b m s txt,
           ev = App.Respond t s /\
           Page.tasks w !! t = Some (Some (Page.StoryCall b m)) /\
           GenAI.settledText s = Some txt /\
           Page.story (App.dispatch ev w) = JsString.trim txt)).
Proof.
  assert (Hload : forall t file result,
             Page.tasks w !! t = Some (Some (Page.FileRead file)) ->
             App.dispatch (App.Load t result) w
             = snd (App.reader_onload file result
                      (Page.with_tasks (<[t := None]> (Page.tasks w)) w))).
  { intros t file result Ht. unfold App.dispatch.
    rewrite (step_Load _ _ _ _ Ht). reflexivity. }
  split; [|split; [|split; [|split]]].
  - intros t file result Ht. eexists. split; [|split; [|split]].
    3:{ rewrite (step_Load _ _ _ _ Ht). apply reader_onload_eq. }
    + reflexivity.
    + reflexivity.
    + rewrite (Hload _ _ _ Ht). simpl. repeat split.
      rewrite length_app. simpl. lia.
  - intros t b m s txt Ht Hs.
    rewrite (dispatch_Ok _ _ _
               (eq_trans (step_Respond_story _ _ _ _ s Ht)
                         (reader_onload_settled_text _ _ _ Hs))).
    split; reflexivity.
  - intros t b m s Ht Hs.
    destruct (reader_onload_settled_no_text s
                (Page.with_tasks (<[t := None]> (Page.tasks w)) w) Hs)
      as (l & Hl).
    rewrite (dispatch_Ok _ _ _
               (eq_trans (step_Respond_story _ _ _ _ s Ht) Hl)).
    repeat split.
  - intros t file result s Ht Hs. simpl.
    set (w1 := App.dispatch (App.Load t result) w).
    assert (Hw1 : Page.story w1 = [] /\
                  Page.tasks w1 !! length (Page.tasks w)
                  = Some (Some (Page.StoryCall result (Page.type file)))).
    { unfold w1. rewrite (Hload _ _ _ Ht). simpl. split; [reflexivity|].
      apply list_lookup_middle. rewrite length_insert. reflexivity. }
    destruct Hw1 as (Hst & Htask).
    destruct (reader_onload_settled_no_text s
                (Page.with_tasks
                   (<[length (Page.tasks w) := None]> (Page.tasks w1)) w1) Hs)
      as (l & Hl).
    rewrite (dispatch_Ok _ _ _
               (eq_trans (step_Respond_story _ _ _ _ s Htask) Hl)).
    exact Hst.
  - intros ev. apply story_changes_only.
Qed.

Lemma C8_story_lifecycle_witness :
  Page.story
    (@App.run specCodec
       [App.Load 0 Scenario.dataURL;
        App.Respond (length (Page.tasks Scenario.selected))
                    (GenAI.Rejected (NetworkError (js "offline")))]
       Scenario.selected)
  = [].
Proof.
  apply (proj1 (proj2 (proj2 (proj2
           (C8_story_cleared_then_set_on_success specCodec
              Scenario.selected))))
           0 Scenario.jpeg Scenario.dataURL
           (GenAI.Rejected (NetworkError (js "offline")))).
  - vm_compute. reflexivity.
  - reflexivity.
Defined.

(** C1. At most one playback session at a time does not hold of the
    code. With a story on the page, "Read Aloud" is pressed; while the
    status is [loadingAudio] the file input is disabled but the playback
    button is not, and Playing is still false, so a second press starts
    a second speech call. When the first call settles its source is
    started and Playing is set; when the second settles, a second source
    is started while the first is rendering, and the reference to the
    first is overwritten: the first source is neither stopped nor
    disconnected, and two sessions are active. *)
Theorem C1_double_toggle_two_sessions :
  Page.status (@App.run specCodec Scenario.firstClick Page.init)
  = Page.loadingAudio /\
  App.input_disabled (@App.run specCodec Scenario.firstClick Page.init)
  = true /\
  App.button_disabled (@App.run specCodec Scenario.firstClick Page.init)
  = false /\
  Page.isPlaying (@App.run specCodec Scenario.firstPlaying Page.init)
  = true /\
  App.sessions (@App.run specCodec Scenario.firstPlaying Page.init) = [0] /\
  App.sessions
    (@App.dispatch specCodec Scenario.secondSettles
       (@App.run specCodec Scenario.firstPlaying Page.init))
  = [0; 1] /\
  App.sessions (@App.run specCodec Scenario.doubleToggle Page.init)
  = [0; 1] /\
  Page.audioSourceRef (@App.run specCodec Scenario.doubleToggle Page.init)
  = Some 1 /\
  (exists nd,
     Page.nodes (@App.run specCodec Scenario.doubleToggle Page.init) !! 0
     = Some nd /\
     WebAudio.started nd = true /\
     WebAudio.finished nd = false /\
     WebAudio.connected nd = true) /\
  Page.uncaught (@App.run specCodec Scenario.doubleToggle Page.init) = [] /\
  ~ (forall evs,
       length (App.sessions (@App.run specCodec evs Page.init)) <= 1).
Proof.
  repeat (split; [vm_compute; reflexivity|]).
  split.
  { eexists. split; [vm_compute; reflexivity|]. repeat split. }
  split; [vm_compute; reflexivity|].
  intros Hall. specialize (Hall Scenario.doubleToggle).
  vm_compute in Hall. lia.
Qed.

(** ** The state machine *)

Section MachineProperties.
Import WebAudio GenAI Page GeminiService App Machine.
Context {codec : Codec}.

Lemma dispatch_Throw (ev : Event) (w w' : World) (e : Exn) :
  step ev w = (Throw e, w') ->
  dispatch ev w = with_uncaught (uncaught w' ++ [e]) w'.
Proof. intros Hs. unfold dispatch. rewrite Hs. reflexivity. Qed.

Lemma button_enabled_story (w : World) :
  button_disabled w = false -> JsString.truthy (story w) = true.
Proof.
  unfold button_disabled. intros H. apply orb_false_elim in H as [H _].
  apply negb_false_iff, H.
Qed.

Lemma transition_Ok (ev : Event) (w w' : World) :
  step ev w = (Ok tt, w') -> transition w ev w' ->
  transition w ev (dispatch ev w).
Proof. intros Hs Ht. rewrite (dispatch_Ok _ _ _ Hs). exact Ht. Qed.

Lemma transition_Throw (ev : Event) (w w' : World) (e : Exn) :
  step ev w = (Throw e, w') ->
  transition w ev (with_uncaught (uncaught w' ++ [e]) w') ->
  transition w ev (dispatch ev w).
Proof. intros Hs Ht. rewrite (dispatch_Throw _ _ _ _ Hs). exact Ht. Qed.

Lemma Click_transition (w : World) : transition w Click (dispatch Click w).
Proof.
  destruct (button_disabled w) eqn:Hb.
  { rewrite dispatch_Click_disabled by exact Hb. constructor. }
  pose proof (button_enabled_story w Hb) as Hst.
  destruct (isPlaying w) eqn:Hp.
  - destruct (audioSourceRef w) as [n|] eqn:Href.
    + destruct (nodes w !! n) as [nd|] eqn:Hn.
      * destruct (started nd) eqn:Hs.
        -- eapply transition_Ok; [|eapply T_stop; eassumption].
           rewrite dispatch_Click_enabled by exact Hb.
           unfold handleTogglePlayback, Page.bind, Page.gets.
           rewrite Hp. apply stopPlayback_some; assumption.
        -- eapply (transition_Throw _ _ w InvalidStateError).
           2:{ eapply T_stop_throws; try eassumption.
               intros nd' Hnd'. congruence. }
           rewrite dispatch_Click_enabled by exact Hb.
           unfold handleTogglePlayback, stopPlayback, Page.bind, Page.gets.
           rewrite Hp, Href. unfold node_call, on_node, stop.
           rewrite Hn, Hs. reflexivity.
      * eapply (transition_Throw _ _ w (TypeError [])).
        2:{ eapply T_stop_throws; try eassumption.
            intros nd' Hnd'. congruence. }
        rewrite dispatch_Click_enabled by exact Hb.
        unfold handleTogglePlayback, stopPlayback, Page.bind, Page.gets.
        rewrite Hp, Href. unfold node_call, on_node. rewrite Hn.
        reflexivity.
    + eapply transition_Ok; [|apply T_stop_nothing; assumption].
      rewrite dispatch_Click_enabled by exact Hb.
      unfold handleTogglePlayback, Page.bind, Page.gets.
      rewrite Hp. apply stopPlayback_none, Href.
  - destruct (context_of w) eqn:Hctx.
    + eapply transition_Ok; [|apply T_speak; assumption].
      rewrite dispatch_Click_enabled by exact Hb.
      unfold handleTogglePlayback, Page.bind, Page.gets.
      rewrite Hp, Hst. unfold context_of in Hctx.
      destruct w as [im st sta er pl ctx src nds tks rqs con unc aut].
      simpl in *. destruct ctx as [c|]; subst; reflexivity.
    + eapply transition_Ok; [|apply T_resume; assumption].
      rewrite dispatch_Click_enabled by exact Hb.
      unfold handleTogglePlayback, Page.bind, Page.gets.
      rewrite Hp, Hst. unfold context_of in Hctx.
      destruct w as [im st sta er pl ctx src nds tks rqs con unc aut].
      simpl in *. destruct ctx as [c|]; subst; reflexivity.
Qed.

Lemma Change_transition (w : World) (files : option (list File)) :
  transition w (Change files) (dispatch (Change files) w).
Proof.
  destruct (input_disabled w) eqn:Hd.
  { eapply transition_Ok; [|apply T_ignored].
    unfold step, Page.bind, Page.gets. rewrite Hd. reflexivity. }
  destruct (files ?. head) as [file|] eqn:Hf.
  - destruct (JsString.startsWith (type file) (js "image/")) eqn:Hty.
    + eapply transition_Ok; [|eapply T_read; eassumption].
      rewrite dispatch_Change_enabled by exact Hd.
      unfold handleImageChange. rewrite Hf, Hty. reflexivity.
    + eapply transition_Ok; [|eapply T_reject; eassumption].
      rewrite dispatch_Change_enabled by exact Hd.
      unfold handleImageChange. rewrite Hf, Hty. reflexivity.
  - eapply transition_Ok; [|apply T_ignored].
    rewrite dispatch_Change_enabled by exact Hd.
    unfold handleImageChange. rewrite Hf. reflexivity.
Qed.

Lemma Load_transition (w : World) (t : nat) (result : jsstring) :
  transition w (Load t result) (dispatch (Load t result) w).
Proof.
  destruct (tasks w !! t) as [[[file| | |]|]|] eqn:Ht;
    try (eapply transition_Ok; [|apply T_ignored];
         unfold step, Page.bind, Page.gets; rewrite Ht; reflexivity).
  eapply transition_Ok; [|eapply T_load; exact Ht].
  rewrite (step_Load _ _ _ _ Ht). reflexivity.
Qed.

Lemma Respond_transition (w : World) (t : nat) (s : Settlement) :
  transition w (Respond t s) (dispatch (Respond t s) w).
Proof.
  destruct (tasks w !! t) as [[[file|b m|st|st]|]|] eqn:Ht;
    try (eapply transition_Ok; [|apply T_ignored];
         unfold step, Page.bind, Page.gets; rewrite Ht; reflexivity).
  - destruct (settledText s) as [txt|] eqn:Hs.
    + eapply transition_Ok; [|eapply T_story; eassumption].
      rewrite (step_Respond_story _ _ _ _ s Ht).
      apply reader_onload_settled_text, Hs.
    + destruct (reader_onload_settled_no_text s (settled t w) Hs)
        as (l & Hl).
      eapply transition_Ok; [|eapply (T_story_failed _ _ _ _ _ l);
                               eassumption].
      rewrite (step_Respond_story _ _ _ _ s Ht). exact Hl.
  - assert (Hstep : step (Respond t s) w
                    = handleTogglePlayback_settled s (settled t w)).
    { unfold step, Page.bind, Page.gets. rewrite Ht. reflexivity. }
    destruct (playback_cases s (settled t w)) as [(e & l & Hc) | (b & Hc)].
    + eapply transition_Ok;
        [|eapply (T_play_failed _ _ _ s (l ++ [(None, e)])); exact Ht].
      rewrite Hstep. unfold handleTogglePlayback_settled.
      erewrite try_catch_Throw by exact Hc.
      rewrite handleTogglePlayback_catch_eq. unfold failed, logged.
      simpl. rewrite <- app_assoc. reflexivity.
    + eapply transition_Ok; [|eapply (T_play _ _ _ s b); exact Ht].
      rewrite Hstep. unfold handleTogglePlayback_settled.
      erewrite try_catch_Ok by exact Hc. reflexivity.
Qed.

Lemma Resumed_transition (w : World) (t : nat) (r : Result unit) :
  transition w (Resumed t r) (dispatch (Resumed t r) w).
Proof.
  destruct (tasks w !! t) as [[[file|b m|st|st]|]|] eqn:Ht;
    try (eapply transition_Ok; [|apply T_ignored];
         unfold step, Page.bind, Page.gets; rewrite Ht; reflexivity).
  destruct r as [[]|e].
  - eapply transition_Ok; [|eapply T_resumed; exact Ht].
    unfold step, Page.bind, Page.gets. rewrite Ht. reflexivity.
  - eapply transition_Ok; [|eapply T_resume_failed; exact Ht].
    unfold step, Page.bind, Page.gets. rewrite Ht. reflexivity.
Qed.

Lemma Ended_transition (w : World) (n : nat) :
  transition w (Ended n) (dispatch (Ended n) w).
Proof.
  assert (Hstep : step (Ended n) w = fire_ended n w) by reflexivity.
  unfold fire_ended, Page.bind, Page.gets in Hstep.
  destruct (nodes w !! n) as [nd|] eqn:Hn.
  2:{ eapply transition_Ok; [exact Hstep | apply T_ignored]. }
  destruct (started nd) eqn:Hs; simpl in Hstep.
  2:{ eapply transition_Ok; [exact Hstep | apply T_ignored]. }
  destruct (dispatched nd) eqn:Hd; simpl in Hstep.
  { eapply transition_Ok; [exact Hstep | apply T_ignored]. }
  unfold node_call, on_node in Hstep. rewrite Hn in Hstep.
  destruct (onended nd) eqn:Ho.
  - eapply transition_Ok; [exact Hstep | eapply T_ended; eassumption].
  - eapply transition_Ok;
      [exact Hstep | eapply T_ended_unobserved; eassumption].
Qed.

(** Every step of the page is a transition. *)
Lemma dispatch_transition (ev : Event) (w : World) :
  transition w ev (dispatch ev w).
Proof.
  destruct ev as [files | | t result | t s | t r | n | st | st].
  - apply Change_transition.
  - apply Click_transition.
  - apply Load_transition.
  - apply Respond_transition.
  - apply Resumed_transition.
  - apply Ended_transition.
  - destruct (audioContextRef w) as [ctx|] eqn:Hctx.
    + eapply transition_Ok; [|eapply T_state; exact Hctx].
      unfold step, Page.bind, Page.gets. rewrite Hctx. reflexivity.
    + eapply transition_Ok; [|apply T_ignored].
      unfold step, Page.bind, Page.gets. rewrite Hctx. reflexivity.
  - eapply transition_Ok; [|apply T_autoplay]. reflexivity.
Qed.

(** Induction over the pages reached from the initial one. *)
Lemma reachable_ind (I : World -> Prop) :
  I init ->
  (forall w ev w', invariant w -> I w -> transition w ev w' -> I w') ->
  forall evs, I (run evs init).
Proof.
  intros Hinit Hstep evs.
  assert (Hgen : forall w, invariant w -> I w -> I (run evs w)).
  { induction evs as [|ev evs IH]; intros w Hinv Hw; simpl; [exact Hw|].
    apply IH; [apply invariant_dispatch, Hinv|].
    eapply Hstep; [exact Hinv | exact Hw | apply dispatch_transition]. }
  apply Hgen; [apply invariant_init | exact Hinit].
Qed.

Lemma truthy_nonempty (s : jsstring) :
  JsString.truthy s = true -> s <> [].
Proof. destruct s; [discriminate | intros _ Heq; discriminate]. Qed.

Lemma task_ok_lookup (w : World) (t : nat) (task : Task) :
  traffic_ok w -> tasks w !! t = Some (Some task) -> task_ok (Some task).
Proof.
  intros [Ht _] Hl. eapply (proj1 (Forall_lookup _ _) Ht). exact Hl.
Qed.

Lemma traffic_ok_reachable (evs : list Event) : traffic_ok (run evs init).
Proof.
  apply reachable_ind.
  { split; constructor. }
  intros w ev w' _ Hok Ht.
  pose proof (task_ok_lookup w) as Hlook. destruct Hok as [Htk Hrq].
  destruct Ht; unfold traffic_ok, spawned, requested, failed, logged, settled;
    simpl;
    try (split; [try assumption | try assumption]);
    repeat match goal with
      | |- Forall _ (_ ++ _) => apply Forall_app; split
      | |- Forall _ (<[_ := _]> _) => apply Forall_insert; [assumption|exact I]
      | |- Forall _ [_] => apply Forall_cons; split; [|constructor]
      end;
    try assumption;
    unfold task_ok, request_ok, speechRequest, storyRequest.
  all: try (apply truthy_nonempty, button_enabled_story; assumption).
  all: try match goal with
         | Hl : tasks _ !! _ = Some (Some _) |- _ =>
             exact (Hlook _ _ (conj Htk Hrq) Hl)
         end.
  - split; [reflexivity|]. split; [|reflexivity].
    match goal with
    | Hl : tasks _ !! _ = Some (Some _) |- _ =>
        exact (Hlook _ _ (conj Htk Hrq) Hl)
    end.
  - split; [reflexivity|]. split; [reflexivity|]. exists (story w).
    split; [|reflexivity].
    apply truthy_nonempty, button_enabled_story; assumption.
  - split; [reflexivity|]. split; [reflexivity|]. exists st.
    split; [|reflexivity].
    match goal with
    | Hl : tasks _ !! _ = Some (Some _) |- _ =>
        exact (Hlook _ _ (conj Htk Hrq) Hl)
    end.
Qed.

Lemma error_ok_reachable (evs : list Event) : error_ok (run evs init).
Proof.
  apply reachable_ind.
  { left. reflexivity. }
  intros w ev w' _ Hok Ht. unfold error_ok in *.
  destruct Ht; unfold failed; simpl; auto.
Qed.

Lemma loading_ok_reachable (evs : list Event) : loading_ok (run evs init).
Proof.
  apply reachable_ind.
  { split; discriminate. }
  intros w ev w' _ [Hs Ha] Ht.
  destruct Ht; unfold loading_ok, failed; simpl;
    try (split; [first [assumption | discriminate | reflexivity]
                | first [assumption | discriminate
                        | intros _; apply truthy_nonempty,
                            button_enabled_story; assumption]]).
Qed.

Lemma uncaught_reachable (evs : list Event) : uncaught (run evs init) = [].
Proof.
  apply reachable_ind; [reflexivity|].
  intros w ev w' (Hsrc & _ & _) Hun Ht.
  destruct Ht; unfold failed; simpl; try assumption.
  match goal with
  | Href : audioSourceRef _ = Some _ |- _ =>
      destruct (Hsrc _ Href) as (nd & Hn & Hst)
  end.
  match goal with
  | Hno : forall nd, _ -> started nd = false |- _ =>
      rewrite (Hno _ Hn) in Hst
  end.
  discriminate.
Qed.

Lemma nodes_ok_step (w w' : World) (ev : Event) :
  nodes_ok w -> transition w ev w' -> nodes_ok w'.
Proof.
  intros Hok Ht. unfold nodes_ok in *.
  assert (Hlook : forall n nd, nodes w !! n = Some nd ->
            started nd = true /\ onended nd = true /\ buffer nd <> None).
  { intros n nd Hn. exact (proj1 (Forall_lookup _ _) Hok n nd Hn). }
  destruct Ht; unfold failed; simpl; try assumption.
  - apply Forall_insert; [assumption|]. simpl. eauto.
  - apply Forall_app. split; [assumption|].
    apply Forall_cons. split; [|constructor]. simpl.
    repeat split. discriminate.
  - apply Forall_insert; [assumption|]. simpl. eauto.
  - apply Forall_insert; [assumption|]. simpl. eauto.
Qed.

Lemma nodes_ok_reachable (evs : list Event) : nodes_ok (run evs init).
Proof.
  apply reachable_ind.
  { constructor. }
  intros w ev w' _ Hok Ht. eapply nodes_ok_step; eassumption.
Qed.

(** The source [audioSourceRef] holds is rendering and connected. *)
Lemma held_source_reachable (evs : list Event) :
  nodes_ok (run evs init) /\
  forall n,
    audioSourceRef (run evs init) = Some n ->
    exists nd,
      nodes (run evs init) !! n = Some nd /\
      rendering nd = true /\ connected nd = true.
Proof.
  apply (reachable_ind
           (fun w => nodes_ok w /\
                     forall n, audioSourceRef w = Some n ->
                               exists nd, nodes w !! n = Some nd /\
                                          rendering nd = true /\
                                          connected nd = true)).
  { split; [constructor | intros n Hn; discriminate]. }
  intros w ev w' _ [Hok Hheld] Ht.
  split; [eapply nodes_ok_step; eassumption|].
  destruct Ht; unfold failed; simpl; try assumption;
    try (intros m Hm; discriminate).
  - intros m Hm. injection Hm as <-. exists (sounding b).
    split; [apply list_lookup_middle; reflexivity|]. split; reflexivity.
  - match goal with
    | Hn : nodes _ !! _ = Some ?nd, Ho : onended ?nd = false |- _ =>
        destruct (proj1 (Forall_lookup _ _) Hok _ _ Hn) as (_ & Ho' & _);
        congruence
    end.
Qed.

Lemma image_changes_only (ev : Event) (w : World) :
  image (dispatch ev w) <> image w ->
  exists t file result,
    ev = Load t result /\
    tasks w !! t = Some (Some (FileRead file)) /\
    image (dispatch ev w) = Some result.
Proof.
  intros Hne. pose proof (dispatch_transition ev w) as Ht.
  remember (dispatch ev w) as w' eqn:Hw'. clear Hw'.
  destruct Ht; unfold failed in Hne; simpl in Hne;
    try (exfalso; apply Hne; reflexivity).
  do 3 eexists. split; [reflexivity|]. split; [eassumption | reflexivity].
Qed.

(** *** Single handlers *)

Lemma rendering_from_app (g : Graph) (nd : SourceNode) :
  forall i,
    rendering_from i (g ++ [nd])
    = rendering_from i g ++ (if rendering nd then [i + length g] else []).
Proof.
  induction g as [|x g IH]; intros i; simpl.
  - rewrite Nat.add_0_r. destruct (rendering nd); reflexivity.
  - rewrite IH. replace (S i + length g) with (i + S (length g)) by lia.
    destruct (rendering x); reflexivity.
Qed.

Lemma rendering_from_lookup (g : Graph) (n : nat) (nd : SourceNode) :
  forall i,
    g !! n = Some nd -> rendering nd = true ->
    In (i + n) (rendering_from i g).
Proof.
  revert n. induction g as [|x g IH]; intros n i Hn Hr; [discriminate|].
  destruct n as [|n]; simpl in *.
  - injection Hn as ->. rewrite Hr, Nat.add_0_r. left. reflexivity.
  - replace (i + S n) with (S i + n) by lia.
    destruct (rendering x); [right|]; apply IH; assumption.
Qed.

Lemma step_Respond_speech (w : World) (t : nat) (st : jsstring)
    (s : Settlement) :
  tasks w !! t = Some (Some (SpeechCall st)) ->
  step (Respond t s) w = handleTogglePlayback_settled s (settled t w).
Proof.
  intros Ht. unfold step, Page.bind, Page.gets. rewrite Ht. reflexivity.
Qed.

Lemma step_Ended (w : World) (n : nat) (nd : SourceNode) :
  nodes w !! n = Some nd ->
  started nd = true -> dispatched nd = false -> onended nd = true ->
  step (Ended n) w
  = (Ok tt,
     with_audioSourceRef None
       (with_isPlaying false
          (with_nodes (<[n := with_dispatched nd]> (nodes w)) w))).
Proof.
  intros Hn Hs Hd Ho.
  change (step (Ended n) w) with (fire_ended n w).
  unfold fire_ended, Page.bind, Page.gets. rewrite Hn, Hs, Hd. simpl.
  unfold node_call, on_node. rewrite Hn, Ho. reflexivity.
Qed.

Lemma split_without (sep : N) (s : jsstring) :
  Forall (fun c => c <> sep) s -> JsString.split sep s = [s].
Proof.
  induction 1 as [|c s Hc _ IH]; [reflexivity|]. simpl.
  destruct (N.eqb_spec c sep); [contradiction|]. rewrite IH. reflexivity.
Qed.

Lemma split_at_first (sep : N) (h rest : jsstring) :
  Forall (fun c => c <> sep) h ->
  JsString.split sep (h ++ sep :: rest) = h :: JsString.split sep rest.
Proof.
  induction 1 as [|c s Hc _ IH]; simpl.
  - rewrite N.eqb_refl. reflexivity.
  - destruct (N.eqb_spec c sep); [contradiction|]. rewrite IH. reflexivity.
Qed.

End MachineProperties.

(** X1. Whatever the user and the browser do, every story request the
    page has sent names a MIME type that starts with "image/", goes to
    the model "gemini-2.5-flash" and carries the fixed prompt: a file
    that is not an image never reaches the service. *)
Theorem X1_story_requests_name_image_types
    (codec : Codec) (evs : list App.Event) :
  Forall
    (fun r =>
       match r with
       | GenAI.StoryRequest model _ mimeType prompt =>
           JsString.startsWith mimeType (js "image/") = true /\
           model = js "gemini-2.5-flash" /\
           prompt = GeminiService.storyPrompt
       | GenAI.SpeechRequest _ _ _ => True
       end)
    (Page.requests (App.run evs Page.init)).
Proof.
  destruct (traffic_ok_reachable evs) as [_ Hrq].
  eapply Forall_impl; [exact Hrq|].
  intros [model data mimeType prompt | model prompt voice]; simpl;
    [|trivial].
  intros (Hm & Hty & Hp). repeat split; assumption.
Qed.

(** X2. Every speech request the page has sent asks the model
    "gemini-2.5-flash-preview-tts" with the voice "Kore" to read a
    Story that is not empty, after the fixed instruction: the speech
    service is never called with an empty text. *)
Theorem X2_speech_requests_read_a_story
    (codec : Codec) (evs : list App.Event) :
  Forall
    (fun r =>
       match r with
       | GenAI.SpeechRequest model prompt voiceName =>
           model = js "gemini-2.5-flash-preview-tts" /\
           voiceName = js "Kore" /\
           exists story,
             story <> [] /\
             prompt
             = js "Read this with an expressive, narrative voice: " ++ story
       | GenAI.StoryRequest _ _ _ _ => True
       end)
    (Page.requests (App.run evs Page.init)).
Proof.
  destruct (traffic_ok_reachable evs) as [_ Hrq].
  eapply Forall_impl; [exact Hrq|].
  intros [model data mimeType prompt | model prompt voice]; simpl;
    [trivial|].
  intros H. exact H.
Qed.

(** X3. After every sequence of events the message shown under the
    story is empty or one of the three fixed messages of the component;
    no text of an exception or of a response of the service is ever
    shown. *)
Theorem X3_error_is_a_fixed_message (codec : Codec) (evs : list App.Event) :
  Page.error (App.run evs Page.init) = [] \/
  Page.error (App.run evs Page.init)
  = js "Please upload a valid image file." \/
  Page.error (App.run evs Page.init)
  = js "Failed to generate story. Please try again." \/
  Page.error (App.run evs Page.init)
  = js "Failed to generate audio. Please try again.".
Proof. exact (error_ok_reachable evs). Qed.

(** X4. No sequence of events makes a handler of the component let an
    exception escape: rejected calls, responses without text or audio,
    payloads that do not decode and a rejected resume are all caught,
    and [stopPlayback] is only ever called on a started source. *)
Theorem X4_no_uncaught_exception (codec : Codec) (evs : list App.Event) :
  Page.uncaught (App.run evs Page.init) = [].
Proof. exact (uncaught_reachable evs). Qed.

(** X5. After every sequence of events: while the status is
    [loadingStory] the Story is empty, and while it is [loadingAudio]
    the Story is not empty. So the playback button is disabled exactly
    when the Story is empty; the second condition of its [disabled]
    attribute never decides. *)
Theorem X5_loading_states_and_story (codec : Codec) (evs : list App.Event) :
  (Page.status (App.run evs Page.init) = Page.loadingStory ->
   Page.story (App.run evs Page.init) = []) /\
  (Page.status (App.run evs Page.init) = Page.loadingAudio ->
   Page.story (App.run evs Page.init) <> []) /\
  App.button_disabled (App.run evs Page.init)
  = negb (JsString.truthy (Page.story (App.run evs Page.init))).
Proof.
  destruct (loading_ok_reachable evs) as [Hs Ha].
  split; [exact Hs|]. split; [exact Ha|].
  unfold App.button_disabled.
  destruct (Page.status (App.run evs Page.init)) eqn:Hst; simpl;
    try apply orb_false_r.
  rewrite (Hs eq_refl). reflexivity.
Qed.

(** X6. In a page reached from the initial one where the story is being
    read and the button is enabled, a click stops the reading: the
    source that [audioSourceRef] held is stopped and disconnected, the
    reference is cleared, Playing is false. Nothing else happens: no
    request is sent, no task started, and status, Story and message are
    as before. *)
Theorem X6_click_while_playing_stops
    (codec : Codec) (evs : list App.Event) (w : Page.World) :
  w = App.run evs Page.init ->
  Page.isPlaying w = true ->
  App.button_disabled w = false ->
  exists n nd,
    Page.audioSourceRef w = Some n /\
    Page.nodes (App.dispatch App.Click w) !! n = Some nd /\
    WebAudio.rendering nd = false /\
    WebAudio.connected nd = false /\
    Page.isPlaying (App.dispatch App.Click w) = false /\
    Page.audioSourceRef (App.dispatch App.Click w) = None /\
    Page.status (App.dispatch App.Click w) = Page.status w /\
    Page.story (App.dispatch App.Click w) = Page.story w /\
    Page.error (App.dispatch App.Click w) = Page.error w /\
    Page.requests (App.dispatch App.Click w) = Page.requests w /\
    Page.tasks (App.dispatch App.Click w) = Page.tasks w.
Proof.
  intros -> Hp Hb.
  pose proof (invariant_run evs Page.init invariant_init) as (H1 & H2 & _).
  set (w := App.run evs Page.init) in *.
  destruct (Page.audioSourceRef w) as [n|] eqn:Href;
    [|exfalso; exact (H2 Hp Href)].
  destruct (H1 n Href) as (nd & Hn & Hst).
  assert (Hstep : App.step App.Click w
                  = (Ok tt,
                     Page.with_isPlaying false
                       (Page.with_audioSourceRef None
                          (Page.with_nodes
                             (<[n := WebAudio.with_connected false
                                       (WebAudio.with_finished nd)]>
                                (Page.nodes w)) w)))).
  { rewrite dispatch_Click_enabled by exact Hb.
    unfold App.handleTogglePlayback, Page.bind, Page.gets.
    rewrite Hp. apply stopPlayback_some; assumption. }
  rewrite (dispatch_Ok _ _ _ Hstep). eexists n, _. split; [reflexivity|].
  split.
  { simpl. apply list_lookup_insert_eq. eapply lookup_lt_Some, Hn. }
  split.
  { unfold WebAudio.rendering. simpl. apply andb_false_r. }
  repeat split.
Qed.

Lemma X6_click_while_playing_witness :
  Page.isPlaying
    (@App.dispatch specCodec App.Click
       (@App.run specCodec Scenario.reading Page.init))
  = false.
Proof.
  destruct (X6_click_while_playing_stops specCodec Scenario.reading
              (@App.run specCodec Scenario.reading Page.init) eq_refl)
    as (n & nd & _ & _ & _ & _ & Hp & _).
  - vm_compute. reflexivity.
  - vm_compute. reflexivity.
  - exact Hp.
Defined.

(** X7. When a speech call settles with an audio payload that is not
    empty, that decodes, and whose bytes make a buffer at 24000 Hz and
    one channel, and the audio context exists, the handler creates one
    source with that buffer, connects it, starts it and keeps it in
    [audioSourceRef]; Playing is set and the status is Idle. The source
    is one more session; message and console are untouched. *)
Theorem X7_settled_speech_starts_reading
    (codec : Codec) (w : Page.World) (t : nat) (story : jsstring)
    (response : GenAI.Response) (a : jsstring) (bytes : list byte)
    (b : AudioBuffer) (ctx : WebAudio.ContextState) :
  Page.tasks w !! t = Some (Some (Page.SpeechCall story)) ->
  GeminiService.audioData response = Some a ->
  a <> [] ->
  decode a = Ok bytes ->
  decodeAudioData bytes 24000 1 = Ok b ->
  Page.audioContextRef w = Some ctx ->
  exists w',
    App.dispatch (App.Respond t (GenAI.Fulfilled response)) w = w' /\
    Page.status w' = Page.idle /\
    Page.isPlaying w' = true /\
    Page.audioSourceRef w' = Some (length (Page.nodes w)) /\
    Page.nodes w' = Page.nodes w ++ [WebAudio.sounding b] /\
    App.sessions w' = App.sessions w ++ [length (Page.nodes w)] /\
    Page.error w' = Page.error w /\
    Page.console w' = Page.console w /\
    Page.requests w' = Page.requests w /\
    Page.tasks w' = <[t := None]> (Page.tasks w).
Proof.
  intros Ht Ha Hne Hd Hb Hctx. eexists. split.
  { apply dispatch_Ok. rewrite (step_Respond_speech _ _ _ _ Ht).
    unfold App.handleTogglePlayback_settled.
    erewrite try_catch_Ok; [reflexivity|].
    eapply playback_ok; try eassumption.
    destruct a; [contradiction | reflexivity]. }
  simpl. repeat split.
  unfold App.sessions. simpl. rewrite rendering_from_app. reflexivity.
Qed.

Lemma X7_settled_speech_witness :
  Page.isPlaying
    (@App.dispatch specCodec
       (App.Respond 2 (GenAI.Fulfilled Scenario.twoSamples))
       (@App.run specCodec Scenario.firstClick Page.init))
  = true.
Proof.
  destruct (X7_settled_speech_starts_reading specCodec
              (@App.run specCodec Scenario.firstClick Page.init) 2
              (js "The lighthouse kept its own hours.")
              Scenario.twoSamples (js "AAD/fw==")
              [x00; x00; xff; x7f]
              {| sampleRate := 24000; numberOfChannels := 1;
                 channelData := [[(0 # 32768)%Q; (32767 # 32768)%Q]] |}
              WebAudio.running)
    as (w' & Hw' & _ & Hp & _).
  - vm_compute. reflexivity.
  - vm_compute. reflexivity.
  - discriminate.
  - vm_compute. reflexivity.
  - vm_compute. reflexivity.
  - vm_compute. reflexivity.
  - rewrite Hw'. exact Hp.
Defined.

(** X8. In a page reached from the initial one, the [ended] event of a
    source that has not received it yet runs the handler of lines 87-90
    whichever source [audioSourceRef] holds at that time: Playing
    becomes false and the reference is cleared, the source has
    finished, the other sources and the status are as before. *)
Theorem X8_ended_clears_playing_and_reference
    (codec : Codec) (evs : list App.Event) (w : Page.World) (n : nat)
    (nd : WebAudio.SourceNode) :
  w = App.run evs Page.init ->
  Page.nodes w !! n = Some nd ->
  WebAudio.dispatched nd = false ->
  exists nd',
    Page.nodes (App.dispatch (App.Ended n) w) !! n = Some nd' /\
    WebAudio.rendering nd' = false /\
    Page.isPlaying (App.dispatch (App.Ended n) w) = false /\
    Page.audioSourceRef (App.dispatch (App.Ended n) w) = None /\
    Page.status (App.dispatch (App.Ended n) w) = Page.status w /\
    (forall m, m <> n ->
       Page.nodes (App.dispatch (App.Ended n) w) !! m = Page.nodes w !! m).
Proof.
  intros -> Hn Hd.
  pose proof (nodes_ok_reachable evs) as Hok.
  destruct (proj1 (Forall_lookup _ _) Hok n nd Hn) as (Hs & Ho & _).
  rewrite (dispatch_Ok _ _ _ (step_Ended _ _ _ Hn Hs Hd Ho)).
  eexists. split.
  { simpl. apply list_lookup_insert_eq. eapply lookup_lt_Some, Hn. }
  split.
  { unfold WebAudio.rendering. simpl. apply andb_false_r. }
  repeat split.
  intros m Hm. simpl. apply list_lookup_insert_ne. congruence.
Qed.

Lemma X8_ended_witness :
  Page.isPlaying
    (@App.dispatch specCodec (App.Ended 0)
       (@App.run specCodec Scenario.reading Page.init))
  = false.
Proof.
  destruct (X8_ended_clears_playing_and_reference specCodec Scenario.reading
              (@App.run specCodec Scenario.reading Page.init) 0
              (WebAudio.sounding
                 {| sampleRate := 24000; numberOfChannels := 1;
                    channelData := [[(0 # 32768)%Q; (32767 # 32768)%Q]] |})
              eq_refl)
    as (nd' & _ & _ & Hp & _).
  - vm_compute. reflexivity.
  - reflexivity.
  - exact Hp.
Defined.

(** X9. A change of the file input does nothing at all while a story or
    an audio is being generated (the input is disabled), and nothing at
    all when it carries no file. *)
Theorem X9_change_without_effect
    (codec : Codec) (w : Page.World) (files : option (list Page.File)) :
  Page.status w = Page.loadingStory \/ Page.status w = Page.loadingAudio \/
  files = None \/ files = Some [] ->
  App.dispatch (App.Change files) w = w.
Proof.
  intros Hcase. apply dispatch_Ok.
  destruct (App.input_disabled w) eqn:Hd.
  { unfold App.step, Page.bind, Page.gets. rewrite Hd. reflexivity. }
  rewrite dispatch_Change_enabled by exact Hd.
  unfold App.input_disabled, App.isLoading in Hd.
  destruct Hcase as [Hs | [Hs | [-> | ->]]];
    try (rewrite Hs in Hd; discriminate); reflexivity.
Qed.

Lemma X9_change_without_effect_witness :
  @App.dispatch specCodec (App.Change (Some [Scenario.jpeg]))
    (@App.run specCodec Scenario.firstClick Page.init)
  = @App.run specCodec Scenario.firstClick Page.init.
Proof.
  apply (X9_change_without_effect specCodec).
  right. left. vm_compute. reflexivity.
Defined.

(** X10. Selecting an image, the end of its read and the settling of
    its story call, whether it succeeds or fails, leave the playback
    alone: Playing, the source in [audioSourceRef], the audio context
    and every source of the graph are as before. A story that is being
    read goes on being read over the new image. *)
Theorem X10_story_phase_leaves_playback_alone
    (codec : Codec) (w : Page.World) :
  (forall files, Machine.same_audio w (App.dispatch (App.Change files) w)) /\
  (forall t result,
     Machine.same_audio w (App.dispatch (App.Load t result) w)) /\
  (forall t b m s,
     Page.tasks w !! t = Some (Some (Page.StoryCall b m)) ->
     Machine.same_audio w (App.dispatch (App.Respond t s) w)).
Proof.
  split; [|split].
  - intros files. pose proof (dispatch_transition (App.Change files) w) as Ht.
    remember (App.dispatch (App.Change files) w) as w' eqn:Hw'. clear Hw'.
    inversion Ht; subst; repeat split.
  - intros t result.
    pose proof (dispatch_transition (App.Load t result) w) as Ht.
    remember (App.dispatch (App.Load t result) w) as w' eqn:Hw'. clear Hw'.
    inversion Ht; subst; repeat split.
  - intros t b m s Hcall.
    pose proof (dispatch_transition (App.Respond t s) w) as Ht.
    remember (App.dispatch (App.Respond t s) w) as w' eqn:Hw'. clear Hw'.
    inversion Ht; subst; try congruence; repeat split.
Qed.

Lemma X10_story_phase_witness :
  Page.isPlaying
    (@App.dispatch specCodec (App.Load 3 Scenario.dataURL)
       (@App.dispatch specCodec (App.Change (Some [Scenario.jpeg]))
          (@App.run specCodec Scenario.reading Page.init)))
  = true.
Proof.
  pose proof (proj1 (proj2 (X10_story_phase_leaves_playback_alone specCodec
                (@App.dispatch specCodec (App.Change (Some [Scenario.jpeg]))
                   (@App.run specCodec Scenario.reading Page.init))))
                3 Scenario.dataURL) as (Hp & _).
  rewrite Hp. vm_compute. reflexivity.
Defined.

(** X11. [fileToGenerativePart] sends as data what stands between the
    first comma of the string and the next one, or the end: the payload
    of a data URL. A string without a comma gives no data at all. The
    MIME type is passed on as it is. *)
Theorem X11_fileToGenerativePart_takes_the_payload
    (h payload rest mimeType : jsstring) :
  Forall (fun c => c <> 44%N) h ->
  Forall (fun c => c <> 44%N) payload ->
  GeminiService.fileToGenerativePart (h ++ 44%N :: payload) mimeType
  = (Some payload, mimeType) /\
  GeminiService.fileToGenerativePart
    (h ++ 44%N :: payload ++ 44%N :: rest) mimeType
  = (Some payload, mimeType) /\
  GeminiService.fileToGenerativePart h mimeType = (None, mimeType).
Proof.
  intros Hh Hp. unfold GeminiService.fileToGenerativePart,
    GeminiService.comma.
  split; [|split].
  - rewrite (split_at_first _ _ _ Hh), (split_without _ _ Hp). reflexivity.
  - rewrite (split_at_first _ _ _ Hh), (split_at_first _ _ _ Hp).
    reflexivity.
  - rewrite (split_without _ _ Hh). reflexivity.
Qed.

Lemma X11_fileToGenerativePart_witness :
  GeminiService.fileToGenerativePart Scenario.dataURL (js "image/jpeg")
  = (Some (js "/9j/4AAQ"), js "image/jpeg").
Proof.
  apply (proj1 (X11_fileToGenerativePart_takes_the_payload
                  (js "data:image/jpeg;base64") (js "/9j/4AAQ") []
                  (js "image/jpeg")
                  ltac:(repeat constructor; discriminate)
                  ltac:(repeat constructor; discriminate))).
Defined.

(** X12. The two service functions wrap every failure. A settled speech
    call either returns the audio payload of the response, which is
    then not empty, or throws the one error "Failed to communicate with
    the Gemini API for speech generation." after logging the cause
    once (a response without audio counts as "No audio data received
    from API."); a settled story call either returns the trimmed text
    or throws "Failed to communicate with the Gemini API for story
    generation." after logging the cause once. Neither writes anything
    but the console. *)
Theorem X12_service_failures_are_wrapped
    (s : GenAI.Settlement) (w : Page.World) :
  ((exists response a,
      s = GenAI.Fulfilled response /\
      GeminiService.audioData response = Some a /\
      a <> [] /\
      GeminiService.generateSpeechFromText_settled s w = (Ok a, w))
   \/
   (exists cause,
      GeminiService.generateSpeechFromText_settled s w
      = (Throw (JsError (js "Failed to communicate with the Gemini API for speech generation.")),
         Page.with_console
           (Page.console w
            ++ [(Some (js "Error generating speech from text:"), cause)])
           w) /\
      (cause = JsError (js "No audio data received from API.") \/
       s = GenAI.Rejected cause)))
  /\
  ((exists txt,
      GenAI.settledText s = Some txt /\
      GeminiService.generateStoryFromImage_settled s w
      = (Ok (JsString.trim txt), w))
   \/
   (exists cause,
      GeminiService.generateStoryFromImage_settled s w
      = (Throw (JsError (js "Failed to communicate with the Gemini API for story generation.")),
         Page.with_console
           (Page.console w
            ++ [(Some (js "Error generating story from image:"), cause)])
           w))).
Proof.
  split.
  - destruct s as [response | e].
    + destruct (GeminiService.noAudio response) eqn:Hno.
      * right. eexists. split; [apply speech_settled_noAudio, Hno|].
        left. reflexivity.
      * left. unfold GeminiService.noAudio in Hno.
        destruct (GeminiService.audioData response) as [a|] eqn:Ha;
          [|discriminate].
        apply negb_false_iff in Hno. exists response, a.
        split; [reflexivity|]. split; [exact Ha|]. split.
        { destruct a; [discriminate | intros Heq; discriminate]. }
        apply speech_settled_audio; assumption.
    + right. exists e. split; [apply speech_settled_rejected|].
      right. reflexivity.
  - destruct (GenAI.settledText s) as [txt|] eqn:Hs.
    + left. exists txt. split; [reflexivity|].
      apply story_settled_text, Hs.
    + right. apply story_settled_no_text, Hs.
Qed.

(** X13. The image on the page changes only when a file read
    completes, and then to the data URL the reader delivers: no failure
    of a story or speech call, no rejected file and no playback event
    removes or replaces the displayed image. *)
Theorem X13_image_changes_only_on_load
    (codec : Codec) (w : Page.World) (ev : App.Event) :
  Page.image (App.dispatch ev w) <> Page.image w ->
  exists t file result,
    ev = App.Load t result /\
    Page.tasks w !! t = Some (Some (Page.FileRead file)) /\
    Page.image (App.dispatch ev w) = Some result.
Proof. apply image_changes_only. Qed.

Lemma X13_image_changes_witness :
  exists t file result,
    App.Load 0 Scenario.dataURL = App.Load t result /\
    Page.tasks Scenario.selected !! t = Some (Some (Page.FileRead file)) /\
    Page.image (@App.dispatch specCodec (App.Load 0 Scenario.dataURL)
                  Scenario.selected)
    = Some result.
Proof.
  apply (X13_image_changes_only_on_load specCodec Scenario.selected
           (App.Load 0 Scenario.dataURL)).
  vm_compute. discriminate.
Defined.

(** X14. After every sequence of events the source that
    [audioSourceRef] holds is one that is rendering and connected to
    the output: the reference never stays on a source that was stopped
    or has ended, so [stopPlayback] always acts on a live source. *)
Theorem X14_held_source_is_rendering
    (codec : Codec) (evs : list App.Event) (n : nat) :
  Page.audioSourceRef (App.run evs Page.init) = Some n ->
  exists nd,
    Page.nodes (App.run evs Page.init) !! n = Some nd /\
    WebAudio.rendering nd = true /\
    WebAudio.connected nd = true /\
    In n (App.sessions (App.run evs Page.init)).
Proof.
  intros Href.
  destruct (proj2 (held_source_reachable evs) n Href) as (nd & Hn & Hr & Hc).
  exists nd. repeat split; try assumption.
  unfold App.sessions.
  apply (rendering_from_lookup (Page.nodes (App.run evs Page.init)) n nd 0
           Hn Hr).
Qed.

Lemma X14_held_source_witness :
  exists nd,
    Page.nodes (@App.run specCodec Scenario.reading Page.init) !! 0
    = Some nd /\
    WebAudio.rendering nd = true.
Proof.
  destruct (X14_held_source_is_rendering specCodec Scenario.reading 0)
    as (nd & Hn & Hr & _).
  - vm_compute. reflexivity.
  - exists nd. split; assumption.
Defined.
